(** * PyLogic: a shallow embedding of the expression trees, their evaluation,
    the Lark grammar used by [Tree], the truth table and [simplify].

    Source files: src/tree.py, src/expression.py, src/variable.py,
    src/logic_tree.py, src/logic_node.py, src/logic_var.py. *)

From Stdlib Require Import String Ascii List ZArith Lia Bool Sorting.Sorted.
From stdpp Require Import base gmap strings list.
Import ListNotations.

Open Scope string_scope.

(* ------------------------------------------------------------------ *)
(** ** Python exceptions and the result monad *)

Inductive exn :=
| KeyError (msg : string)
| TypeError
| AttributeError (msg : string)
| ValueError (msg : string).

Inductive result (A : Type) :=
| Ok (a : A)
| Err (e : exn).
Arguments Ok {A} a.
Arguments Err {A} e.

Definition rbind {A B} (m : result A) (k : A -> result B) : result B :=
  match m with Ok a => k a | Err e => Err e end.

Notation "'let*' x := m 'in' k" := (rbind m (fun x => k))
  (at level 200, x name, m at level 100, k at level 200).

(** The double quote character, used to build Python f-string messages. *)
Definition dq : string := String (ascii_of_nat 34) EmptyString.

(* ------------------------------------------------------------------ *)
(** ** The Tree family: [Variable] and [Expression] *)

(** A [Variable] (src/variable.py) or an [Expression] (src/expression.py).
    The [operator] of an [Expression] is the string it was built with. *)
Inductive node :=
| Var (variable : string) (has_not : bool)
| Expr (operator : string) (left right : node) (has_not : bool).

(** [Variable.evaluate] and [Expression.evaluate]; the truth values are a
    Python dict from variable names to booleans. *)
Fixpoint evaluate (n : node) (truth_values : gmap string bool) : result bool :=
  match n with
  | Var v hn =>
      match truth_values !! v with
      | None => Err (KeyError ("No variable " ++ dq ++ v ++ dq ++
                               " was found in truth values"))
      | Some b => Ok (xorb b hn)
      end
  | Expr op l r hn =>
      let* left := evaluate l truth_values in
      let* right := evaluate r truth_values in
      let evaluation :=
        if String.eqb op "OR" then left || right
        else if String.eqb op "NOR" then negb (left || right)
        else if String.eqb op "AND" then left && right
        else if String.eqb op "NAND" then negb (left && right)
        else if String.eqb op "XOR" then xorb left right
        else if String.eqb op "XNOR" then negb (xorb left right)
        else false in
      Ok (xorb hn evaluation)
  end.

(** The variable names occurring in a node (with repetitions). *)
Fixpoint node_vars (n : node) : list string :=
  match n with
  | Var v _ => [v]
  | Expr _ l r _ => node_vars l ++ node_vars r
  end.

(** [Variable.__str__] *)
Definition variable_str (v : string) (has_not : bool) : string :=
  if has_not then "NOT " ++ v else v.

(** [Variable.functional] and [Expression.functional]. *)
Fixpoint functional (n : node) : string :=
  match n with
  | Var v hn => if hn then "not(" ++ v ++ ")" else v
  | Expr op l r hn =>
      if hn then "not(" ++ op ++ "(" ++ functional l ++ ", " ++ functional r ++ "))"
      else op ++ "(" ++ functional l ++ ", " ++ functional r ++ ")"
  end.

(** [Expression(operator, left, right, has_not)]: the constructor stores its
    arguments as given; nothing is checked when [json] is [None]. *)
Definition expression_init (operator : string) (left right : node)
  (has_not : bool) : result node :=
  Ok (Expr operator left right has_not).

(* ------------------------------------------------------------------ *)
(** ** The interchange form: Python dicts built by [Tree.__create_dict] *)

(** A JSON-like Python value: a string, a bool or a dict, the dict being an
    association list in insertion order (keys are distinct in every dict the
    code builds, so the first binding is the only one). *)
#[warnings="-register-all"]
Inductive jval :=
| JStr (s : string)
| JBool (b : bool)
| JDict (kvs : list (string * jval)).

Fixpoint assoc (k : string) (kvs : list (string * jval)) : option jval :=
  match kvs with
  | [] => None
  | (k', v) :: rest => if String.eqb k k' then Some v else assoc k rest
  end.

Definition has_key (k : string) (kvs : list (string * jval)) : bool :=
  match assoc k kvs with Some _ => true | None => false end.

(** Python's substring test [k in s] on strings. *)
Fixpoint substring_of (k s : string) : bool :=
  match s with
  | EmptyString => String.eqb k EmptyString
  | String _ s' => String.prefix k s || substring_of k s'
  end.

(** [k in j] *)
Definition py_in (k : string) (j : jval) : result bool :=
  match j with
  | JDict kvs => Ok (has_key k kvs)
  | JStr s => Ok (substring_of k s)
  | JBool _ => Err TypeError
  end.

(** [j[k]] *)
Definition getitem (j : jval) (k : string) : result jval :=
  match j with
  | JDict kvs =>
      match assoc k kvs with Some v => Ok v | None => Err (KeyError k) end
  | _ => Err TypeError
  end.

(** [j.get(k, default)] *)
Definition dict_get (j : jval) (k : string) (default : jval) : result jval :=
  match j with
  | JDict kvs => match assoc k kvs with Some v => Ok v | None => Ok default end
  | _ => Err (AttributeError "get")
  end.

(** The node fields hold a [str] and a [bool]; a dict carrying a value of
    another type there is outside this model and reported as a [TypeError]. *)
Definition as_str (j : jval) : result string :=
  match j with JStr s => Ok s | _ => Err TypeError end.
Definition as_bool (j : jval) : result bool :=
  match j with JBool b => Ok b | _ => Err TypeError end.

(** [Variable(json = j)] *)
Definition variable_json (j : jval) : result node :=
  let* present := py_in "variable" j in
  if negb present then Err (AttributeError "Variable key must exist in json")
  else
    let* v := getitem j "variable" in
    let* hn := dict_get j "has_not" (JBool false) in
    let* v := as_str v in
    let* hn := as_bool hn in
    Ok (Var v hn).

(** [json[k]] on a dict, the value found being passed on to [conv]. *)
Fixpoint lookup_with (conv : jval -> result node) (k : string)
  (kvs : list (string * jval)) : result node :=
  match kvs with
  | [] => Err (KeyError k)
  | (k', v) :: rest => if String.eqb k k' then conv v else lookup_with conv k rest
  end.

(** [Expression(json = j)]: the children are dispatched on the presence of
    the ["variable"] key, as in lines 33-41 of src/expression.py. *)
Fixpoint expression_json (j : jval) : result node :=
  match j with
  | JDict kvs =>
      if negb (has_key "operator" kvs) && negb (has_key "left" kvs)
         && negb (has_key "right" kvs)
      then Err (KeyError "Operator, left, and right keys must exist")
      else
        let* operator := getitem j "operator" in
        let* has_not := dict_get j "has_not" (JBool false) in
        let child (v : jval) : result node :=
          let* isvar := py_in "variable" v in
          if isvar then variable_json v else expression_json v in
        let* left := lookup_with child "left" kvs in
        let* right := lookup_with child "right" kvs in
        let* operator := as_str operator in
        let* has_not := as_bool has_not in
        Ok (Expr operator left right has_not)
  | JStr s =>
      if negb (substring_of "operator" s) && negb (substring_of "left" s)
         && negb (substring_of "right" s)
      then Err (KeyError "Operator, left, and right keys must exist")
      else Err TypeError
  | JBool _ => Err TypeError
  end.

(** The dispatch [Variable(json = v) if "variable" in v else Expression(json = v)]. *)
Definition child_json (v : jval) : result node :=
  let* isvar := py_in "variable" v in
  if isvar then variable_json v else expression_json v.

(* ------------------------------------------------------------------ *)
(** ** The LogicTree family: [LogicVar] and [LogicNode] *)

(** src/logic_var.py and src/logic_node.py *)
Inductive lnode :=
| LogicVar (value : string) (has_not : bool)
| LogicNode (left : lnode) (operator : string) (right : lnode) (has_not : bool).

(** [LogicVar.__str__] and [LogicNode.__str__] *)
Fixpoint lnode_str (n : lnode) : string :=
  match n with
  | LogicVar v hn => (if hn then "NOT " else "") ++ v
  | LogicNode l op r hn =>
      if negb hn then lnode_str l ++ " " ++ op ++ " " ++ lnode_str r
      else "NOT(" ++ lnode_str l ++ " " ++ op ++ " " ++ lnode_str r ++ ")"
  end.

(** [LogicNode(left, operator, right, has_not)] without [json]: only the
    [None] check of lines 46-52. *)
Definition logic_node_init (left : option lnode) (operator : option string)
  (right : option lnode) (has_not : option bool) : result lnode :=
  match left, operator, right, has_not with
  | Some l, Some op, Some r, Some hn => Ok (LogicNode l op r hn)
  | _, _, _, _ => Err (ValueError
      ("The " ++ dq ++ "left" ++ dq ++ ", " ++ dq ++ "operator" ++ dq ++ ", " ++
       dq ++ "right" ++ dq ++ ", and " ++ dq ++ "has_not" ++ dq ++
       " parameters must not be a NoneType."))
  end.

(* ------------------------------------------------------------------ *)
(** ** Tokens of [Tree.BOOLEAN]

    The grammar (src/tree.py lines 18-39, the same text in src/logic_tree.py)
    is handed to Lark's default Earley parser, whose dynamic lexer matches
    the terminals the grammar expects at each position.  We model it for
    inputs whose words are separated by blanks or symbols, with no operator
    or [TILDE] keyword glued to the front of a word (Lark reads ["a orb"] as
    [a], [or], [b]; [lex] reads [orb] as one word): a word is a
    greedy [CNAME] (a letter or _ followed by letters, digits or _), which the grammar may read as
    [IDENT], as [TILDE] ("not", "NOT") or as an operator keyword; the
    symbols are the two-character operators "-^", "-+", "-*" and the
    characters + | * & ^ ~ ! ( ) [ ]; white space ([ \t\f\r\n]) is
    ignored; any other character is a lexing error.  "||" and "&&" are two
    tokens, as ["|" ~ 1..2] matches one or two "|" terminals. *)

Inductive token :=
| TWord (s : string)
| TSym (s : string).

Definition token_eqb (x y : token) : bool :=
  match x, y with
  | TWord a, TWord b => String.eqb a b
  | TSym a, TSym b => String.eqb a b
  | _, _ => false
  end.

Fixpoint tokens_eqb (xs ys : list token) : bool :=
  match xs, ys with
  | [], [] => true
  | x :: xs', y :: ys' => token_eqb x y && tokens_eqb xs' ys'
  | _, _ => false
  end.

Definition token_text (x : token) : string :=
  match x with TWord s => s | TSym s => s end.

Definition in_range (c : ascii) (lo hi : nat) : bool :=
  Nat.leb lo (nat_of_ascii c) && Nat.leb (nat_of_ascii c) hi.

Definition is_letter (c : ascii) : bool := in_range c 65 90 || in_range c 97 122.
Definition is_cname_start (c : ascii) : bool := is_letter c || (Nat.eqb (nat_of_ascii c) 95).
Definition is_cname_cont (c : ascii) : bool := is_cname_start c || in_range c 48 57.
Definition is_ws (c : ascii) : bool :=
  existsb (Nat.eqb (nat_of_ascii c)) [32; 9; 10; 12; 13].
Definition is_single_sym (c : ascii) : bool :=
  existsb (Nat.eqb (nat_of_ascii c)) [43; 124; 42; 38; 94; 126; 33; 40; 41; 91; 93].

Definition emit (word : list ascii) (ts : list token) : list token :=
  match word with [] => ts | _ => TWord (string_of_list_ascii word) :: ts end.

(** [word] is the word being read (empty when none). *)
Fixpoint lex_go (cs : list ascii) (word : list ascii) : option (list token) :=
  match cs with
  | [] => Some (emit word [])
  | c :: rest =>
      if negb (match word with [] => true | _ => false end) && is_cname_cont c
      then lex_go rest (word ++ [c])
      else if is_ws c then option_map (emit word) (lex_go rest [])
      else if is_cname_start c then option_map (emit word) (lex_go rest [c])
      else if (Nat.eqb (nat_of_ascii c) 45) then
        match rest with
        | d :: rest' =>
            if existsb (Nat.eqb (nat_of_ascii d)) [94; 43; 42]
            then option_map (fun ts => emit word (TSym (String c (String d EmptyString)) :: ts))
                   (lex_go rest' [])
            else None
        | [] => None
        end
      else if is_single_sym c then
        option_map (fun ts => emit word (TSym (String c EmptyString) :: ts)) (lex_go rest [])
      else None
  end.

Definition lex (s : string) : option (list token) := lex_go (list_ascii_of_string s) [].

(* ------------------------------------------------------------------ *)
(** ** The grammar and Lark's choice among its derivations

    Levels: 0 [orexpr], 1 [andexpr], 2 [xorexpr], 3 [xnorexpr], 4 [norexpr],
    5 [nandexpr], 6 [term].  A level [l < 6] rule
    [?lexpr: (lexpr OP)? nextexpr] expands to one binary alternative per
    operator spelling, in the order written, followed by the pass-through
    alternative [lexpr: nextexpr].  [?term: nexpr | pexpr | IDENT] with
    [?nexpr: TILDE orexpr] and [?pexpr: "(" orexpr ")" | "[" orexpr "]"]. *)

Definition op_rules (l : nat) : list (list token) :=
  match l with
  | 0 => [[TSym "+"]; [TSym "|"]; [TSym "|"; TSym "|"]; [TWord "or"]; [TWord "OR"]]
  | 1 => [[TSym "*"]; [TSym "&"]; [TSym "&"; TSym "&"]; [TWord "and"]; [TWord "AND"]]
  | 2 => [[TSym "^"]; [TWord "xor"]; [TWord "XOR"]]
  | 3 => [[TSym "-^"]; [TWord "xnor"]; [TWord "XNOR"]]
  | 4 => [[TSym "-+"]; [TWord "nor"]; [TWord "NOR"]]
  | 5 => [[TSym "-*"]; [TWord "nand"]; [TWord "NAND"]]
  | _ => []
  end.

Definition level_name (l : nat) : string :=
  match l with
  | 0 => "orexpr" | 1 => "andexpr" | 2 => "xorexpr" | 3 => "xnorexpr"
  | 4 => "norexpr" | 5 => "nandexpr" | _ => "term"
  end.

(** [TILDE: "~" | "!" | "not" | "NOT"] *)
Definition is_tilde (x : token) : bool :=
  match x with
  | TSym s => String.eqb s "~" || String.eqb s "!"
  | TWord s => String.eqb s "not" || String.eqb s "NOT"
  end.

Definition closes (o c : string) : bool :=
  (String.eqb o "(" && String.eqb c ")") || (String.eqb o "[" && String.eqb c "]").

(** The words the grammar also reads as operators or as [TILDE]. *)
Definition is_keyword (s : string) : bool :=
  existsb (String.eqb s)
    ["or"; "OR"; "and"; "AND"; "xor"; "XOR"; "xnor"; "XNOR"; "nor"; "NOR";
     "nand"; "NAND"; "not"; "NOT"].

(** A Lark parse tree after the [?] rules are inlined and the anonymous
    tokens filtered: a binary rule keeps its two operands, [nexpr] keeps
    its [TILDE] token and its operand, a [pexpr] is replaced by its
    operand, an [IDENT] is a token. *)
Inductive ptree :=
| PBin (data : string) (l r : ptree)
| PNexpr (tilde : string) (e : ptree)
| PIdent (s : string).

Section Grammar.
Variable ts : list token.

Definition tok (i : nat) : option token := nth_error ts i.

(** The tokens [k .. k'-1] spell an operator of level [l]. *)
Definition op_atb (l k k' : nat) : bool :=
  existsb (fun o => Nat.eqb k' (k + length o) &&
                    tokens_eqb (firstn (length o) (skipn k ts)) o) (op_rules l).

(** Token [i] opens a group that token [j] closes. *)
Definition paren_at (i j : nat) : bool :=
  match tok i, tok j with
  | Some (TSym o), Some (TSym c) => closes o c
  | _, _ => false
  end.

(** [D l i j]: the tokens [i .. j-1] derive the level-[l] symbol. *)
Inductive D : nat -> nat -> nat -> Prop :=
| D_bin l i k k' j : l < 6 -> D l i k -> op_atb l k k' = true -> D (S l) k' j -> D l i j
| D_pass l i j : l < 6 -> D (S l) i j -> D l i j
| D_ident i s : tok i = Some (TWord s) -> D 6 i (S i)
| D_not i j x : tok i = Some x -> is_tilde x = true -> D 0 (S i) j -> D 6 i j
| D_paren i j : paren_at i j = true -> D 0 (S i) j -> D 6 i (S j).

(** Lark resolves an ambiguous Earley forest top-down: at each symbol it
    takes the derivation whose rule comes first in the grammar, so a binary
    alternative is preferred to the pass-through one.  Which of several
    binary derivations it takes is left open here: [Res] admits every one,
    so what is proved of [Res] holds whatever the tie-breaking. *)
Inductive Res : nat -> nat -> nat -> ptree -> Prop :=
| R_bin l i k k' j L R :
    l < 6 -> Res l i k L -> op_atb l k k' = true -> Res (S l) k' j R ->
    Res l i j (PBin (level_name l) L R)
| R_pass l i j P :
    l < 6 ->
    (forall k k', D l i k -> op_atb l k k' = true -> D (S l) k' j -> False) ->
    Res (S l) i j P -> Res l i j P
| R_ident i s : tok i = Some (TWord s) -> Res 6 i (S i) (PIdent s)
| R_not i j x P :
    tok i = Some x -> is_tilde x = true -> Res 0 (S i) j P ->
    Res 6 i j (PNexpr (token_text x) P)
| R_paren i j P : paren_at i j = true -> Res 0 (S i) j P -> Res 6 i (S j) P.

(** Decision procedure for [D], by recursion on a fuel bounding
    [7 * (j - i) + (6 - l)]. *)
Fixpoint derb (fuel l i j : nat) : bool :=
  match fuel with
  | 0 => false
  | S f =>
      if Nat.ltb l 6 then
        existsb (fun k =>
          existsb (fun k' => op_atb l k k' && derb f l i k && derb f (S l) k' j)
            (seq (S k) (j - S k)))
          (seq (S i) (j - S i))
        || derb f (S l) i j
      else
        match tok i with
        | Some x =>
            (match x with TWord _ => Nat.eqb j (S i) | TSym _ => false end)
            || (is_tilde x && derb f 0 (S i) j)
            || (match j with 0 => false | S j' => paren_at i j' && derb f 0 (S i) j' end)
        | None => false
        end
  end.

Definition der (l i j : nat) : bool := derb (7 * (j - i) + 7) l i j.

(** The first binary split of level [l] over [i .. j-1], the operator
    spellings taken in the grammar's order.  When several binary splits
    derive (as in ["a or not b or c"]), Lark's tie-breaking need not pick
    this one: the general facts below are stated over [Res], which admits
    every binary split, or over any parse tree, not over [resolve]. *)
Definition find_split (l i j : nat) : option (nat * nat) :=
  List.find (fun kk => op_atb l (fst kk) (snd kk) && der l i (fst kk) && der (S l) (snd kk) j)
    (flat_map (fun o => map (fun k => (k, k + length o)) (seq (S i) (j - S i)))
       (op_rules l)).

Fixpoint resolve (fuel l i j : nat) : option ptree :=
  match fuel with
  | 0 => None
  | S f =>
      if Nat.ltb l 6 then
        match find_split l i j with
        | Some (k, k') =>
            match resolve f l i k, resolve f (S l) k' j with
            | Some L, Some R => Some (PBin (level_name l) L R)
            | _, _ => None
            end
        | None => resolve f (S l) i j
        end
      else
        match tok i with
        | Some x =>
            if is_tilde x && der 0 (S i) j then
              option_map (PNexpr (token_text x)) (resolve f 0 (S i) j)
            else
              match x with
              | TWord s => if Nat.eqb j (S i) then Some (PIdent s) else None
              | TSym _ =>
                  match j with
                  | S j' => if paren_at i j' && der 0 (S i) j' then resolve f 0 (S i) j'
                            else None
                  | 0 => None
                  end
              end
        | None => None
        end
  end.

End Grammar.

(** [Tree.BOOLEAN.parse(expression).children[0]]: Lark fails (and [Tree]
    reports the expression as invalid) when [start: orexpr] derives nothing. *)
Definition lark_parse (ts : list token) : option ptree :=
  let n := length ts in
  if der ts 0 0 n then resolve ts (7 * n + 7) 0 0 n else None.

(** The operand of the NOT met by following left operands down from the
    root of a parse tree. *)
Fixpoint left_not (p : ptree) : option ptree :=
  match p with
  | PBin _ l _ => left_not l
  | PNexpr _ e => Some e
  | PIdent _ => None
  end.

(** The tokens [1 .. t-1] form a single term: an identifier that is not a
    keyword, or a bracketed group whose contents derive [orexpr]. *)
Definition single_term (ts : list token) (t : nat) : bool :=
  match tok ts 1 with
  | Some (TWord s) => negb (is_keyword s) && Nat.eqb t 2
  | Some (TSym _) => Nat.ltb 2 (t - 1) && paren_at ts 1 (t - 1) && der ts 0 2 (t - 1)
  | None => false
  end.

(** The first token of an operator spelling: a keyword or a symbol other
    than an opening bracket. *)
Definition is_op_first (x : token) : bool :=
  match x with
  | TWord s => is_keyword s
  | TSym s => negb (String.eqb s "(" || String.eqb s "[")
  end.

(** Bracket depth: [+1] for an opening, [-1] for a closing bracket. *)
Definition tdepth (x : option token) : Z :=
  match x with
  | Some (TSym s) =>
      if String.eqb s "(" || String.eqb s "[" then 1%Z
      else if String.eqb s ")" || String.eqb s "]" then (-1)%Z else 0%Z
  | _ => 0%Z
  end.

(** The depth change over the [n] tokens from position [i]. *)
Fixpoint depth_n (ts : list token) (i n : nat) : Z :=
  match n with
  | 0 => 0%Z
  | S n' => (tdepth (tok ts i) + depth_n ts (S i) n')%Z
  end.

(* ------------------------------------------------------------------ *)
(** ** [Tree.__create_dict] and [Tree.__init__] *)

(** [s.find(sub)], as an index, [None] standing for Python's [-1]. *)
Fixpoint str_find (sub s : string) : option nat :=
  if String.prefix sub s then Some 0
  else match s with
       | EmptyString => None
       | String _ s' => option_map S (str_find sub s')
       end.

(** [s[:i]] with Python's meaning of [-1] (drop the last character). *)
Definition slice_upto (s : string) (i : option nat) : string :=
  match i with
  | Some n => substring 0 n s
  | None => substring 0 (String.length s - 1) s
  end.

Definition ascii_upper (c : ascii) : ascii :=
  if in_range c 97 122 then ascii_of_nat (nat_of_ascii c - 32) else c.

Fixpoint str_upper (s : string) : string :=
  match s with
  | EmptyString => EmptyString
  | String c s' => String (ascii_upper c) (str_upper s')
  end.

(** Python truthiness of the values the dicts hold. *)
Definition truthy (j : jval) : bool :=
  match j with
  | JBool b => b
  | JStr s => negb (String.eqb s EmptyString)
  | JDict kvs => match kvs with [] => false | _ => true end
  end.

(** [d[k] = v] on a dict: an existing key keeps its place. *)
Fixpoint assoc_set (k : string) (v : jval) (kvs : list (string * jval))
  : list (string * jval) :=
  match kvs with
  | [] => [(k, v)]
  | (k', v') :: rest =>
      if String.eqb k k' then (k', v) :: rest else (k', v') :: assoc_set k v rest
  end.

Definition setitem (j : jval) (k : string) (v : jval) : result jval :=
  match j with
  | JDict kvs => Ok (JDict (assoc_set k v kvs))
  | _ => Err TypeError
  end.

(** [for variable in new: if variable not in variables: variables.append(variable)] *)
Definition add_new (variables new : list string) : list string :=
  fold_left (fun acc v => if existsb (String.eqb v) acc then acc else app acc [v])
    new variables.

Fixpoint create_dict (p : ptree) : result (jval * list string) :=
  match p with
  | PBin data l r =>
      let* lv := create_dict l in
      let* rv := create_dict r in
      let variables := add_new [] (app (snd lv) (snd rv)) in
      Ok (JDict [("operator", JStr (str_upper (slice_upto data (str_find "expr" data))));
                 ("left", fst lv); ("right", fst rv); ("has_not", JBool false)],
          variables)
  | PNexpr _ e =>
      let* ev := create_dict e in
      let* hn := getitem (fst ev) "has_not" in
      let* expression := setitem (fst ev) "has_not" (JBool (negb (truthy hn))) in
      Ok (expression, add_new [] (snd ev))
  | PIdent s => Ok (JDict [("variable", JStr s); ("has_not", JBool false)], [s])
  end.

(** [list.sort()] on strings (code-point order; insertion sort, which is
    stable like Python's). *)
Fixpoint insert_sorted (x : string) (l : list string) : list string :=
  match l with
  | [] => [x]
  | y :: l' => if String.ltb y x || String.eqb y x then y :: insert_sorted x l'
               else x :: l
  end.
Definition sort_strings (l : list string) : list string :=
  fold_left (fun acc x => insert_sorted x acc) l [].

(** A [Tree]: its [root] and its sorted [variables]. *)
Record tree := mk_tree { root : node; variables : list string }.

Definition invalid_expression : exn := ValueError "The expression given is invalid".

(** [Tree.__init__] from the parse tree [p] that
    [Tree.BOOLEAN.parse(expression).children[0]] returns: every exception is
    turned into the [ValueError]. *)
Definition tree_from_parse (p : ptree) : result tree :=
  match create_dict p with
  | Err _ => Err invalid_expression
  | Ok (expr, vars) =>
      let vars := sort_strings vars in
      let r := (let* isvalue := py_in "value" expr in
                if isvalue then variable_json expr else expression_json expr) in
      match r with
      | Err _ => Err invalid_expression
      | Ok rt => Ok (mk_tree rt vars)
      end
  end.

(** [Tree.__init__]: a failed parse is turned into the [ValueError] too. *)
Definition tree_init (expression : string) : result tree :=
  match lex expression with
  | None => Err invalid_expression
  | Some ts =>
      match lark_parse ts with
      | None => Err invalid_expression
      | Some p => tree_from_parse p
      end
  end.

(* ------------------------------------------------------------------ *)
(** ** [Tree.evaluate]: the truth table *)

(** One row: [{"truth_values": ..., "truth_value": ...}]. *)
Record evaluation := mk_evaluation {
  truth_values : gmap string bool;
  truth_value : bool }.

(** The dict built for the integer [binary] (lines 147-152 of src/tree.py):
    [truth_values[variables[i]] = (binary & (1 << (n - i - 1))) != 0]. *)
Definition row_values (vars : list string) (binary : Z) : gmap string bool :=
  let n := length vars in
  foldl (fun (tv : gmap string bool) i =>
           match vars !! i with
           | Some key =>
               let shift_amount := Z.of_nat (n - i - 1) in
               <[key := negb (Z.eqb (Z.land binary (Z.shiftl 1 shift_amount)) 0)]> tv
           | None => tv
           end)
    ∅ (seq 0 n).

Fixpoint map_result {A B} (f : A -> result B) (l : list A) : result (list B) :=
  match l with
  | [] => Ok []
  | x :: l' => let* y := f x in let* ys := map_result f l' in Ok (y :: ys)
  end.

Definition tree_evaluate (t : tree) : result (list evaluation) :=
  map_result (fun binary =>
      let tv := row_values (variables t) (Z.of_nat binary) in
      let* r := evaluate (root t) tv in
      Ok (mk_evaluation tv r))
    (seq 0 (2 ^ length (variables t))).

(* ------------------------------------------------------------------ *)
(** ** [Tree.simplify] and its Quine-McCluskey collaborator *)

(** The arguments of one [QM(variables, true_at, is_maxterm).solve()] call. *)
Record qm_call := mk_qm_call {
  qm_variables : list string;
  qm_true_at : list nat;
  qm_is_maxterm : bool }.

(** Computations that may raise and that record the calls made to the
    external minimizer ([quine_mccluskey] is not part of the sources). *)
Definition M (A : Type) := list qm_call -> result (A * list qm_call).

Definition mret {A} (a : A) : M A := fun log => Ok (a, log).
Definition mbind {A B} (m : M A) (k : A -> M B) : M B :=
  fun log => match m log with Ok (a, log') => k a log' | Err e => Err e end.
Definition lift {A} (r : result A) : M A :=
  fun log => match r with Ok a => Ok (a, log) | Err e => Err e end.

Notation "'mlet' x := m 'in' k" := (mbind m (fun x => k))
  (at level 200, x name, m at level 100, k at level 200).

Section Simplify.
(** The collaborator: [QM(variables, true_at, is_maxterm).solve()]. *)
Variable QM : list string -> list nat -> bool -> string.

Definition qm_solve (vars : list string) (true_at : list nat) (is_maxterm : bool)
  : M string :=
  fun log => Ok (QM vars true_at is_maxterm, app log [mk_qm_call vars true_at is_maxterm]).

Definition row_truth (evs : list evaluation) (decimal : nat) : bool :=
  match evs !! decimal with Some e => truth_value e | None => false end.

(** [get_minterm] is [None], [True] or [False]; [min(a, b, key=len)]
    returns [a] unless [b] is strictly shorter. *)
Definition simplify (t : tree) (get_minterm : option bool) : M string :=
  mlet evaluations := lift (tree_evaluate t) in
  let true_at_minterms :=
    List.filter (fun d => row_truth evaluations d) (seq 0 (length evaluations)) in
  let true_at_maxterms :=
    List.filter (fun d => negb (row_truth evaluations d)) (seq 0 (length evaluations)) in
  mlet minterm_qm := qm_solve (variables t) true_at_minterms false in
  mlet maxterm_qm := qm_solve (variables t) true_at_maxterms true in
  match get_minterm with
  | Some true => mret minterm_qm
  | Some false => mret maxterm_qm
  | None => mret (if Nat.ltb (String.length maxterm_qm) (String.length minterm_qm)
                  then maxterm_qm else minterm_qm)
  end.
End Simplify.

(* ------------------------------------------------------------------ *)
(** ** [Tree.get_table] and [LogicTree.get_table] *)

(** [c * n] for a one-character string [c]. *)
Fixpoint str_repeat (n : nat) (c : ascii) : string :=
  match n with
  | 0 => EmptyString
  | S n' => String c (str_repeat n' c)
  end.

(** [s.center(width)] as CPython computes it: nothing is added when
    [width <= len(s)]; otherwise [left = marg // 2 + (marg & width & 1)]
    spaces go before [s] and the rest of [marg = width - len(s)] after. *)
Definition py_center (s : string) (width : nat) : string :=
  let len := String.length s in
  if Nat.leb width len then s
  else
    let marg := width - len in
    let left := marg / 2 + Nat.land (Nat.land marg width) 1 in
    str_repeat left " " ++ s ++ str_repeat (marg - left) " ".

(** The newline character. *)
Definition nl : string := String (ascii_of_nat 10) EmptyString.

Definition bit_str (b : bool) : string := if b then "1" else "0".

(** The value of [get_table]: a list when [as_list] is true, else a string. *)
Inductive table :=
| TableList (rows : list string)
| TableStr (s : string).

(** One row of [values]: the comprehension runs over the keys of
    [evaluation["truth_values"]], passed here as [keys] in the dict's
    insertion order. *)
Definition table_row (keys : list string) (self_str : string) (e : evaluation)
  : result string :=
  let* cells := map_result (fun value =>
                  match truth_values e !! value with
                  | Some b => Ok (py_center (bit_str b) (String.length value))
                  | None => Err (KeyError value)
                  end) keys in
  Ok ("| " ++ String.concat " | " cells ++ " | " ++
      py_center (bit_str (truth_value e)) (String.length self_str) ++ " |").

(** The body shared by [Tree.get_table] (src/tree.py lines 161-211) and
    [LogicTree.get_table] (src/logic_tree.py lines 155-204), once
    [self.evaluate()] has returned [evaluations]; [self_str] is [str(self)].
    The dicts of [evaluations] are built by inserting [variables] in order,
    so their keys are [add_new [] variables]. *)
Definition make_table (variables : list string) (self_str : string)
  (evaluations : list evaluation) (as_list : bool) : result table :=
  let header := "| " ++ String.concat " | " variables ++ " | " ++ self_str ++ " |" in
  let separator :=
    "+-" ++ String.concat "-+-" (map (fun v => str_repeat (String.length v) "-") variables)
    ++ "-+-" ++ str_repeat (String.length self_str) "-" ++ "-+" in
  let* rows := map_result (table_row (add_new [] variables) self_str) evaluations in
  let values := String.concat nl rows in
  Ok (if as_list then TableList [header; separator; values]
      else TableStr (header ++ nl ++ separator ++ nl ++ values)).

(** [Tree.get_table(as_list)].  [str(self)] is [str(self.root)], and an
    [Expression] defines no [__str__]: it is Python's default
    [<expression.Expression object at 0x...>], which depends on the object's
    address, so it is a parameter here. *)
Definition tree_get_table (t : tree) (self_str : string) (as_list : bool)
  : result table :=
  let* evaluations := tree_evaluate t in
  make_table (variables t) self_str evaluations as_list.

(* ------------------------------------------------------------------ *)
(** ** The LogicTree family: [LogicTree.__init__] and the JSON loaders *)

(** Python's short-circuit [k1 in j and k2 in j and ...]. *)
Fixpoint py_all_in (ks : list string) (j : jval) : result bool :=
  match ks with
  | [] => Ok true
  | k :: ks' => let* b := py_in k j in if b then py_all_in ks' j else Ok false
  end.

(** [LogicVar(json = j)] (src/logic_var.py lines 18-30); the [None] check
    cannot fail on a value read from a dict. *)
Definition logic_var_json (j : jval) : result lnode :=
  let* present := py_all_in ["value"; "has_not"] j in
  if negb present then
    Err (KeyError ("The " ++ dq ++ "value" ++ dq ++ " and " ++ dq ++ "has_not" ++ dq ++
                   " keys must exist in the LogicVar JSON."))
  else
    let* value := getitem j "value" in
    let* has_not := getitem j "has_not" in
    let* value := as_str value in
    let* has_not := as_bool has_not in
    Ok (LogicVar value has_not).

(** [json[k]] on a dict, the value found being passed on to [conv]. *)
Fixpoint llookup_with (conv : jval -> result lnode) (k : string)
  (kvs : list (string * jval)) : result lnode :=
  match kvs with
  | [] => Err (KeyError k)
  | (k', v) :: rest => if String.eqb k k' then conv v else llookup_with conv k rest
  end.

Definition logic_node_keys_error : exn :=
  KeyError ("The " ++ dq ++ "left" ++ dq ++ ", " ++ dq ++ "operator" ++ dq ++ ", " ++
            dq ++ "right" ++ dq ++ ", and " ++ dq ++ "has_not" ++ dq ++
            " keys must exist in the LogicNode JSON").

(** [operator in ["NAND", "NOR", "XNOR"]] *)
Definition is_inverted (operator : jval) : bool :=
  match operator with
  | JStr s => existsb (String.eqb s) ["NAND"; "NOR"; "XNOR"]
  | _ => false
  end.

(** [LogicNode(json = j)] (src/logic_node.py lines 27-43); the children are
    dispatched on the absence of the ["value"] key. *)
Fixpoint logic_node_json (j : jval) : result lnode :=
  match j with
  | JDict kvs =>
      let* present := py_all_in ["left"; "operator"; "right"; "has_not"] j in
      if negb present then Err logic_node_keys_error
      else
        let* operator := getitem j "operator" in
        let* has_not := getitem j "has_not" in
        let has_not := if is_inverted operator then JBool (negb (truthy has_not))
                       else has_not in
        let child (v : jval) : result lnode :=
          let* isvalue := py_in "value" v in
          if negb isvalue then logic_node_json v else logic_var_json v in
        let* left := llookup_with child "left" kvs in
        let* right := llookup_with child "right" kvs in
        let* operator := as_str operator in
        let* has_not := as_bool has_not in
        Ok (LogicNode left operator right has_not)
  | _ =>
      let* present := py_all_in ["left"; "operator"; "right"; "has_not"] j in
      if negb present then Err logic_node_keys_error else Err TypeError
  end.

(** [LogicTree.__create_dict] (src/logic_tree.py lines 47-102). *)
Fixpoint logic_create_dict (p : ptree) : result (jval * list string) :=
  match p with
  | PBin data l r =>
      let* lv := logic_create_dict l in
      let* rv := logic_create_dict r in
      let variables := add_new [] (app (snd lv) (snd rv)) in
      Ok (JDict [("left", fst lv);
                 ("operator", JStr (str_upper (slice_upto data (str_find "expr" data))));
                 ("right", fst rv); ("has_not", JBool false)],
          variables)
  | PNexpr _ e =>
      let* ev := logic_create_dict e in
      let* hn := getitem (fst ev) "has_not" in
      let* expression := setitem (fst ev) "has_not" (JBool (negb (truthy hn))) in
      Ok (expression, add_new [] (snd ev))
  | PIdent s => Ok (JDict [("value", JStr s); ("has_not", JBool false)], [s])
  end.

(** A [LogicTree]: its [expression] dict, its sorted [variables], its [root]. *)
Record ltree := mk_ltree { expression : jval; lvariables : list string; lroot : lnode }.

(** [LogicTree.__init__] (src/logic_tree.py lines 104-121) from the parse
    tree [p] that [LogicTree.BOOLEAN.parse(expression).children[0]] returns. *)
Definition ltree_from_parse (p : ptree) : result ltree :=
  match logic_create_dict p with
  | Err _ => Err invalid_expression
  | Ok (expr, vars) =>
      let vars := sort_strings vars in
      let r := (let* isvalue := py_in "value" expr in
                if isvalue then logic_var_json expr else logic_node_json expr) in
      match r with
      | Err _ => Err invalid_expression
      | Ok rt => Ok (mk_ltree expr vars rt)
      end
  end.

(** [LogicTree.__init__]: a failed parse is turned into the [ValueError]. *)
Definition ltree_init (s : string) : result ltree :=
  match lex s with
  | None => Err invalid_expression
  | Some ts =>
      match lark_parse ts with
      | None => Err invalid_expression
      | Some p => ltree_from_parse p
      end
  end.

(* ------------------------------------------------------------------ *)
(** ** The LogicTree family: evaluation, [functional], table, [simplify] *)

(** The exceptions [LogicNode.evaluate] raises: those of the model, and the
    [UnboundLocalError] on [evaluation] when the operator is neither
    ["OR"] nor ["AND"] (lines 124-131 of src/logic_node.py). *)
Inductive lexn :=
| PyExn (e : exn)
| UnboundLocalError (name : string).

Inductive lresult (A : Type) :=
| LOk (a : A)
| LErr (e : lexn).
Arguments LOk {A} a.
Arguments LErr {A} e.

Definition lbind {A B} (m : lresult A) (k : A -> lresult B) : lresult B :=
  match m with LOk a => k a | LErr e => LErr e end.

Notation "'llet' x := m 'in' k" := (lbind m (fun x => k))
  (at level 200, x name, m at level 100, k at level 200).

(** [LogicVar.evaluate] and [LogicNode.evaluate]; [truth_values[v]] raises
    [KeyError(v)] for a missing name. *)
Fixpoint lnode_evaluate (n : lnode) (truth_values : gmap string bool) : lresult bool :=
  match n with
  | LogicVar v hn =>
      match truth_values !! v with
      | None => LErr (PyExn (KeyError v))
      | Some b => LOk (if hn then negb b else b)
      end
  | LogicNode l op r hn =>
      llet left := lnode_evaluate l truth_values in
      llet right := lnode_evaluate r truth_values in
      llet evaluation :=
        (if String.eqb op "OR" then LOk (left || right)
         else if String.eqb op "AND" then LOk (left && right)
         else LErr (UnboundLocalError "evaluation")) in
      LOk (if hn then negb evaluation else evaluation)
  end.

Fixpoint lmap_result {A B} (f : A -> lresult B) (l : list A) : lresult (list B) :=
  match l with
  | [] => LOk []
  | x :: l' => llet y := f x in llet ys := lmap_result f l' in LOk (y :: ys)
  end.

(** [LogicTree.evaluate] (src/logic_tree.py lines 126-153).  Its dict
    comprehension [{variables[i]: binary & (1 << (n - 1 - i)) != 0 ...}]
    builds the same dict as [row_values], as [n - 1 - i = n - i - 1]. *)
Definition ltree_evaluate (t : ltree) : lresult (list evaluation) :=
  lmap_result (fun binary =>
      let tv := row_values (lvariables t) (Z.of_nat binary) in
      llet r := lnode_evaluate (lroot t) tv in
      LOk (mk_evaluation tv r))
    (seq 0 (2 ^ length (lvariables t))).

(** [LogicTree.get_table(as_list)]: [str(self)] is [str(self.root)]. *)
Definition ltree_get_table (t : ltree) (as_list : bool) : lresult table :=
  llet evaluations := ltree_evaluate t in
  match make_table (lvariables t) (lnode_str (lroot t)) evaluations as_list with
  | Ok tb => LOk tb
  | Err e => LErr (PyExn e)
  end.

Section LogicSimplify.
(** The collaborator: [QM(variables, true_at, is_maxterm).get_function()]. *)
Variable get_function : list string -> list nat -> bool -> string.

(** [LogicTree.simplify] (src/logic_tree.py lines 206-255). *)
Definition ltree_simplify (t : ltree) (get_minterm : option bool) : lresult string :=
  llet evaluations := ltree_evaluate t in
  let true_at_minterms :=
    List.filter (fun d => row_truth evaluations d) (seq 0 (length evaluations)) in
  let true_at_maxterms :=
    List.filter (fun d => negb (row_truth evaluations d)) (seq 0 (length evaluations)) in
  let minterm_qm := get_function (lvariables t) true_at_minterms false in
  let maxterm_qm := get_function (lvariables t) true_at_maxterms true in
  match get_minterm with
  | Some true => LOk minterm_qm
  | Some false => LOk maxterm_qm
  | None => LOk (if Nat.ltb (String.length maxterm_qm) (String.length minterm_qm)
                 then maxterm_qm else minterm_qm)
  end.
End LogicSimplify.

Definition ascii_lower (c : ascii) : ascii :=
  if in_range c 65 90 then ascii_of_nat (nat_of_ascii c + 32) else c.

Fixpoint str_lower (s : string) : string :=
  match s with
  | EmptyString => EmptyString
  | String c s' => String (ascii_lower c) (str_lower s')
  end.

(** [LogicNode.functional] (src/logic_node.py lines 133-144).  [LogicVar]
    defines no [functional] method: calling it raises [AttributeError]. *)
Fixpoint lnode_functional (n : lnode) : result string :=
  match n with
  | LogicVar _ _ => Err (AttributeError "'LogicVar' object has no attribute 'functional'")
  | LogicNode l op r hn =>
      let op := str_lower op in
      let* lf := lnode_functional l in
      let* rf := lnode_functional r in
      let expr := op ++ "(" ++ lf ++ ", " ++ rf ++ ")" in
      Ok (if hn then "not(" ++ expr ++ ")" else expr)
  end.

(* ------------------------------------------------------------------ *)
(** ** What a parse tree denotes *)

(** The operator name [__create_dict] derives from a rule name. *)
Definition op_of (data : string) : string := str_upper (slice_upto data (str_find "expr" data)).

Definition node_not (n : node) : node :=
  match n with
  | Var v hn => Var v (negb hn)
  | Expr op l r hn => Expr op l r (negb hn)
  end.

(** The [Variable]/[Expression] tree a parse tree stands for: a binary rule
    gives its operator, each [TILDE] flips [has_not]. *)
Fixpoint ptree_node (p : ptree) : node :=
  match p with
  | PBin data l r => Expr (op_of data) (ptree_node l) (ptree_node r) false
  | PNexpr _ e => node_not (ptree_node e)
  | PIdent s => Var s false
  end.

Definition lnode_not (n : lnode) : lnode :=
  match n with
  | LogicVar v hn => LogicVar v (negb hn)
  | LogicNode l op r hn => LogicNode l op r (negb hn)
  end.

(** The [LogicVar]/[LogicNode] tree a parse tree stands for: as
    [ptree_node], except that a NAND, NOR or XNOR node starts negated. *)
Fixpoint ptree_lnode (p : ptree) : lnode :=
  match p with
  | PBin data l r =>
      LogicNode (ptree_lnode l) (op_of data) (ptree_lnode r) (is_inverted (JStr (op_of data)))
  | PNexpr _ e => lnode_not (ptree_lnode e)
  | PIdent s => LogicVar s false
  end.

(** The variable list [Tree.__create_dict] and [LogicTree.__create_dict]
    return for a parse tree. *)
Fixpoint ptree_idents (p : ptree) : list string :=
  match p with
  | PBin _ l r => add_new [] (app (ptree_idents l) (ptree_idents r))
  | PNexpr _ e => add_new [] (ptree_idents e)
  | PIdent s => [s]
  end.

(** The dict [Tree.__create_dict] builds for a node. *)
Fixpoint node_dict (n : node) : jval :=
  match n with
  | Var v hn => JDict [("variable", JStr v); ("has_not", JBool hn)]
  | Expr op l r hn =>
      JDict [("operator", JStr op); ("left", node_dict l); ("right", node_dict r);
             ("has_not", JBool hn)]
  end.

(** The dict [LogicTree.__create_dict] builds for a node, [has_not] as stored
    in the dict. *)
Fixpoint lnode_dict (n : lnode) : jval :=
  match n with
  | LogicVar v hn => JDict [("value", JStr v); ("has_not", JBool hn)]
  | LogicNode l op r hn =>
      JDict [("left", lnode_dict l); ("operator", JStr op); ("right", lnode_dict r);
             ("has_not", JBool hn)]
  end.

(** Flip [has_not] at the NAND, NOR and XNOR nodes, as [LogicNode(json)] does. *)
Fixpoint flip_inverted (n : lnode) : lnode :=
  match n with
  | LogicVar v hn => LogicVar v hn
  | LogicNode l op r hn =>
      LogicNode (flip_inverted l) op (flip_inverted r) (xorb (is_inverted (JStr op)) hn)
  end.

Fixpoint node_ops (n : node) : list string :=
  match n with
  | Var _ _ => []
  | Expr op l r _ => node_ops l ++ [op] ++ node_ops r
  end.

Fixpoint lnode_vars (n : lnode) : list string :=
  match n with
  | LogicVar v _ => [v]
  | LogicNode l _ r _ => lnode_vars l ++ lnode_vars r
  end.

Fixpoint lnode_ops (n : lnode) : list string :=
  match n with
  | LogicVar _ _ => []
  | LogicNode l op r _ => lnode_ops l ++ [op] ++ lnode_ops r
  end.

(** The [Expression] with the same operators, children and negations. *)
Fixpoint lnode_to_node (n : lnode) : node :=
  match n with
  | LogicVar v hn => Var v hn
  | LogicNode l op r hn => Expr op (lnode_to_node l) (lnode_to_node r) hn
  end.

Definition and_or (op : string) : bool := String.eqb op "OR" || String.eqb op "AND".

(** Strictly increasing in code-point order. *)
Definition strictly_sorted (l : list string) : Prop :=
  Sorted (fun a b => String.ltb a b = true) l.

(** The order [list.sort()] leaves strings in: each at most the next. *)
Definition str_le (a b : string) : Prop := (String.ltb a b || String.eqb a b) = true.

(** The operator names [__create_dict] derives from the six binary rules. *)
Definition tree_operators : list string := ["OR"; "AND"; "XOR"; "XNOR"; "NOR"; "NAND"].

(** The shape of every parse tree [BOOLEAN.parse(...).children[0]] can
    return, whichever derivation Lark resolves: a binary node is named
    after one of the six binary rules, an [IDENT] is a non-empty [CNAME]
    match. *)
Fixpoint grammar_tree (p : ptree) : bool :=
  match p with
  | PBin data l r =>
      existsb (String.eqb data) (map level_name (seq 0 6)) && grammar_tree l && grammar_tree r
  | PNexpr _ e => grammar_tree e
  | PIdent s => negb (String.eqb s "")
  end.

(* ------------------------------------------------------------------ *)
(** ** Definitions following the spec's words *)

(** The combine table of spec section 4.2. *)
Definition spec_table : list (string * (bool -> bool -> bool)) :=
  [("OR", orb); ("NOR", fun l r => negb (l || r));
   ("AND", andb); ("NAND", fun l r => negb (l && r));
   ("XOR", xorb); ("XNOR", fun l r => negb (xorb l r))].

Definition six_operators : list string := map fst spec_table.

Definition combine_spec (op : string) (l r : bool) : bool :=
  match List.find (fun e => String.eqb (fst e) op) spec_table with
  | Some (_, f) => f l r
  | None => false
  end.

(** The display rendering as the claims of section 4.1 state it. *)
Fixpoint display_spec (n : lnode) : string :=
  match n with
  | LogicVar v hn => if hn then "NOT " ++ v else v
  | LogicNode l op r hn =>
      let body := display_spec l ++ " " ++ op ++ " " ++ display_spec r in
      if hn then "NOT (" ++ body ++ ")" else body
  end.

(** A blank input: only the characters Lark's [WS] ignores. *)
Definition blank (s : string) : Prop := Forall (fun c => is_ws c = true) (list_ascii_of_string s).

(** Concrete inputs used by the examples. *)
Definition qm_example (vars : list string) (true_at : list nat) (is_maxterm : bool) : string :=
  if is_maxterm then "(a + b)" else "a + b".

Definition or_tree : tree := mk_tree (Expr "OR" (Var "a" false) (Var "b" false) false) ["a"; "b"].

Definition or_tree_rows : list evaluation :=
  match tree_evaluate or_tree with Ok evs => evs | Err _ => [] end.

(** The [Tree] and the [LogicTree] built from a parse tree (a placeholder
    when the constructor raises). *)
Definition tree_of (p : ptree) : tree :=
  match tree_from_parse p with Ok t => t | Err _ => mk_tree (Var "" false) [] end.

Definition ltree_of (p : ptree) : ltree :=
  match ltree_from_parse p with Ok t => t | Err _ => mk_ltree (JDict []) [] (LogicVar "" false) end.

(** The parse tree of ["not (a or b) and c"]. *)
Definition not_group_parse : ptree :=
  PBin "andexpr" (PNexpr "not" (PBin "orexpr" (PIdent "a") (PIdent "b"))) (PIdent "c").

(** The tokens of ["not (a or b) and c"]. *)
Definition not_group_tokens : list token :=
  [TWord "not"; TSym "("; TWord "a"; TWord "or"; TWord "b"; TSym ")"; TWord "and"; TWord "c"].

(* ================================================================== *)
(** * Evaluation *)

Lemma evaluate_expr op l r hn tv :
  evaluate (Expr op l r hn) tv =
  let* a := evaluate l tv in
  let* b := evaluate r tv in
  Ok (xorb hn (if String.eqb op "OR" then a || b
               else if String.eqb op "NOR" then negb (a || b)
               else if String.eqb op "AND" then a && b
               else if String.eqb op "NAND" then negb (a && b)
               else if String.eqb op "XOR" then xorb a b
               else if String.eqb op "XNOR" then negb (xorb a b)
               else false)).
Proof. reflexivity. Qed.

Lemma evaluate_total (n : node) (tv : gmap string bool) :
  (forall x, In x (node_vars n) -> is_Some (tv !! x)) ->
  exists b, evaluate n tv = Ok b.
Proof.
  induction n as [v hn | op l IHl r IHr hn]; simpl; intros Hv.
  - destruct (Hv v (or_introl eq_refl)) as [b Hb]. rewrite Hb. eauto.
  - destruct IHl as [a Ha]; [intros x Hx; apply Hv, in_or_app; auto|].
    destruct IHr as [b Hb]; [intros x Hx; apply Hv, in_or_app; auto|].
    rewrite Ha, Hb. simpl. eauto.
Qed.

(** C3 *)
(** Claim C3: an [Expression] whose operator is one of the six codes
    evaluates to the spec's combine of its children's values, XORed with
    [has_not]; and evaluation returns a boolean (never raises) whenever the
    truth values bind every variable of the tree. *)
Theorem evaluate_operation_combine :
  (forall (op : string) (l r : node) (hn : bool) (tv : gmap string bool),
     In op six_operators ->
     evaluate (Expr op l r hn) tv =
     (let* a := evaluate l tv in
      let* b := evaluate r tv in
      Ok (xorb (combine_spec op a b) hn)))
  /\ (forall (n : node) (tv : gmap string bool),
        (forall x, In x (node_vars n) -> is_Some (tv !! x)) ->
        exists b, evaluate n tv = Ok b).
Proof.
  split; [|exact evaluate_total].
  intros op l r hn tv Hop. rewrite evaluate_expr.
  destruct (evaluate l tv) as [a|e]; [|reflexivity]. simpl.
  destruct (evaluate r tv) as [b|e]; [|reflexivity]. simpl.
  f_equal. rewrite xorb_comm.
  simpl in Hop.
  repeat destruct Hop as [<- | Hop]; try contradiction; reflexivity.
Qed.

Lemma evaluate_operation_combine_witness :
  In "NAND" six_operators /\
  (forall x, In x (node_vars (Expr "NAND" (Var "a" false) (Var "b" true) false)) ->
     is_Some ((<["a" := true]> (<["b" := false]> ∅) : gmap string bool) !! x)) /\
  evaluate (Expr "NAND" (Var "a" false) (Var "b" true) false)
    (<["a" := true]> (<["b" := false]> ∅)) = Ok false /\
  exists b, evaluate (Expr "NAND" (Var "a" false) (Var "b" true) false)
              (<["a" := true]> (<["b" := false]> ∅)) = Ok b.
Proof.
  assert (Hin : In "NAND" six_operators) by (simpl; tauto).
  assert (Hv : forall x, In x (node_vars (Expr "NAND" (Var "a" false) (Var "b" true) false)) ->
     is_Some ((<["a" := true]> (<["b" := false]> ∅) : gmap string bool) !! x)).
  { simpl. intros x [<- | [<- | []]]; vm_compute; eauto. }
  split; [exact Hin|]. split; [exact Hv|].
  split.
  - rewrite (proj1 evaluate_operation_combine _ _ _ _ _ Hin). vm_compute. reflexivity.
  - exact (proj2 evaluate_operation_combine _ _ Hv).
Defined.

(** C4 *)
(** Claim C4: evaluating a [Variable] whose name the truth values lack
    raises a [KeyError] (it is never read as false); when the name is
    bound to [v] the result is [v XOR has_not]. *)
Theorem variable_evaluate_lookup (name : string) (hn : bool) (tv : gmap string bool) :
  (tv !! name = None -> exists msg, evaluate (Var name hn) tv = Err (KeyError msg))
  /\ (forall v, tv !! name = Some v -> evaluate (Var name hn) tv = Ok (xorb v hn)).
Proof.
  split.
  - intros H. simpl. rewrite H. eauto.
  - intros v H. simpl. rewrite H. reflexivity.
Qed.

Lemma variable_evaluate_lookup_witness :
  (∅ : gmap string bool) !! "a" = None /\
  (exists msg, evaluate (Var "a" true) ∅ = Err (KeyError msg)) /\
  evaluate (Var "a" true) (<["a" := true]> ∅) = Ok false.
Proof.
  split; [reflexivity|]. split.
  - apply (proj1 (variable_evaluate_lookup "a" true ∅)). reflexivity.
  - apply (proj2 (variable_evaluate_lookup "a" true (<["a" := true]> ∅)) true).
    reflexivity.
Defined.

(* ================================================================== *)
(** * Deserialization, construction and display *)

Lemma lookup_with_assoc conv k kvs :
  lookup_with conv k kvs =
  match assoc k kvs with Some v => conv v | None => Err (KeyError k) end.
Proof.
  induction kvs as [|[k' v] rest IH]; simpl; [reflexivity|].
  destruct (String.eqb k k'); [reflexivity | exact IH].
Qed.

Lemma expression_json_dict kvs :
  expression_json (JDict kvs) =
  if negb (has_key "operator" kvs) && negb (has_key "left" kvs)
     && negb (has_key "right" kvs)
  then Err (KeyError "Operator, left, and right keys must exist")
  else
    let* operator := getitem (JDict kvs) "operator" in
    let* has_not := dict_get (JDict kvs) "has_not" (JBool false) in
    let* left := lookup_with child_json "left" kvs in
    let* right := lookup_with child_json "right" kvs in
    let* operator := as_str operator in
    let* has_not := as_bool has_not in
    Ok (Expr operator left right has_not).
Proof. reflexivity. Qed.

(** C7 *)
(** Claim C7: deserializing an operation dict keeps its [has_not] flag as
    given whatever its operator code (NAND, NOR and XNOR included), and
    the node built evaluates to the operator's combine XORed with that flag. *)
Theorem expression_json_keeps_has_not (kvs : list (string * jval)) (op : string)
  (L R : jval) (l r : node) (hn : bool) :
  In op six_operators ->
  assoc "operator" kvs = Some (JStr op) ->
  assoc "left" kvs = Some L ->
  assoc "right" kvs = Some R ->
  assoc "has_not" kvs = Some (JBool hn) ->
  child_json L = Ok l ->
  child_json R = Ok r ->
  expression_json (JDict kvs) = Ok (Expr op l r hn)
  /\ forall (tv : gmap string bool) (a b : bool),
       evaluate l tv = Ok a -> evaluate r tv = Ok b ->
       evaluate (Expr op l r hn) tv = Ok (xorb (combine_spec op a b) hn).
Proof.
  intros Hop Ho HL HR Hh Hl Hr. split.
  - rewrite expression_json_dict. unfold has_key. rewrite Ho. simpl.
    rewrite Ho, Hh. simpl. rewrite !lookup_with_assoc, HL, HR, Hl, Hr. reflexivity.
  - intros tv a b Ha Hb.
    rewrite (proj1 evaluate_operation_combine op l r hn tv Hop), Ha, Hb. reflexivity.
Qed.

Lemma expression_json_keeps_has_not_witness :
  expression_json
    (JDict [("operator", JStr "NAND");
            ("left", JDict [("variable", JStr "a"); ("has_not", JBool false)]);
            ("right", JDict [("variable", JStr "b"); ("has_not", JBool false)]);
            ("has_not", JBool false)])
  = Ok (Expr "NAND" (Var "a" false) (Var "b" false) false)
  /\ evaluate (Expr "NAND" (Var "a" false) (Var "b" false) false)
       (<["a" := true]> (<["b" := true]> ∅)) = Ok false.
Proof.
  destruct (expression_json_keeps_has_not
    [("operator", JStr "NAND");
     ("left", JDict [("variable", JStr "a"); ("has_not", JBool false)]);
     ("right", JDict [("variable", JStr "b"); ("has_not", JBool false)]);
     ("has_not", JBool false)] "NAND"
    (JDict [("variable", JStr "a"); ("has_not", JBool false)])
    (JDict [("variable", JStr "b"); ("has_not", JBool false)])
    (Var "a" false) (Var "b" false) false)
    as [H1 H2]; try reflexivity.
  - simpl; tauto.
  - split; [exact H1|]. rewrite (H2 _ true true); reflexivity.
Defined.

(** C8 *)
(** Claim C8 fails: [Expression("FOO", a, b)] and
    [LogicNode(a, "FOO", b, False)] are built without any error. *)
Lemma direct_construction_unknown_operator :
  expression_init "FOO" (Var "a" false) (Var "b" false) false
    = Ok (Expr "FOO" (Var "a" false) (Var "b" false) false)
  /\ logic_node_init (Some (LogicVar "a" false)) (Some "FOO")
       (Some (LogicVar "b" false)) (Some false)
    = Ok (LogicNode (LogicVar "a" false) "FOO" (LogicVar "b" false) false)
  /\ ~ In "FOO" six_operators.
Proof.
  split; [reflexivity|]. split; [reflexivity|].
  simpl. intros H. repeat destruct H as [H | H]; discriminate || contradiction.
Qed.

(** Claim C8, amended: direct construction does not check the operator:
    [Expression] stores any operator string, [LogicNode] only rejects
    [None] arguments. *)
Theorem direct_construction_accepts_any_operator (op : string) (l r : node)
  (hn : bool) (lo ro : lnode) :
  expression_init op l r hn = Ok (Expr op l r hn)
  /\ logic_node_init (Some lo) (Some op) (Some ro) (Some hn) = Ok (LogicNode lo op ro hn).
Proof. split; reflexivity. Qed.

(** C9 *)
(** Claim C9 fails: a negated [LogicNode] renders as "NOT(a OR b)",
    without the space the claim puts after NOT. *)
Lemma negated_operation_display :
  lnode_str (LogicNode (LogicVar "a" false) "OR" (LogicVar "b" false) true) = "NOT(a OR b)"
  /\ display_spec (LogicNode (LogicVar "a" false) "OR" (LogicVar "b" false) true) = "NOT (a OR b)"
  /\ lnode_str (LogicNode (LogicVar "a" false) "OR" (LogicVar "b" false) true)
     <> display_spec (LogicNode (LogicVar "a" false) "OR" (LogicVar "b" false) true).
Proof.
  split; [reflexivity|]. split; [reflexivity|]. vm_compute. discriminate.
Qed.

(** Claim C9, amended: an operation renders "{left} {OP} {right}", or
    "NOT({left} {OP} {right})" with no space when negated; a leaf renders
    "NOT {name}" when negated and "{name}" otherwise ([LogicVar] and
    [Variable] alike). *)
Theorem display_rendering (l r : lnode) (op v : string) :
  lnode_str (LogicNode l op r false) = lnode_str l ++ " " ++ op ++ " " ++ lnode_str r
  /\ lnode_str (LogicNode l op r true)
     = "NOT(" ++ lnode_str l ++ " " ++ op ++ " " ++ lnode_str r ++ ")"
  /\ lnode_str (LogicVar v true) = "NOT " ++ v
  /\ lnode_str (LogicVar v false) = v
  /\ variable_str v true = "NOT " ++ v
  /\ variable_str v false = v.
Proof. repeat split; reflexivity. Qed.

(* ================================================================== *)
(** * The truth table *)

Lemma map_result_spec {A B} (f : A -> result B) (l : list A) (ys : list B) :
  map_result f l = Ok ys ->
  length ys = length l /\
  forall i x, l !! i = Some x -> exists y, ys !! i = Some y /\ f x = Ok y.
Proof.
  revert ys. induction l as [|x l IH]; simpl; intros ys H.
  - inversion H; subst. split; [reflexivity|]. intros i x H'. inversion H'.
  - destruct (f x) as [y|e] eqn:Hf; [|discriminate]. simpl in H.
    destruct (map_result f l) as [ys'|e] eqn:Hl; [|discriminate]. simpl in H.
    inversion H; subst. destruct (IH ys' eq_refl) as [Hlen Hall].
    split; [simpl; lia|].
    intros [|i] z Hz; simpl in Hz.
    + inversion Hz; subst. eauto.
    + simpl. eauto.
Qed.

Lemma map_result_exists {A B} (f : A -> result B) (l : list A) :
  (forall x, In x l -> exists y, f x = Ok y) -> exists ys, map_result f l = Ok ys.
Proof.
  induction l as [|x l IH]; simpl; intros H; [eauto|].
  destruct (H x (or_introl eq_refl)) as [y Hy]. rewrite Hy. simpl.
  destruct IH as [ys Hys]; [intros z Hz; apply H; auto|]. rewrite Hys. simpl. eauto.
Qed.

Section Bits.
Local Open Scope Z_scope.

(** [(binary & (1 << s)) != 0] reads bit [s] of [binary]. *)
Lemma land_shiftl_testbit (b s : Z) :
  (0 <= s)%Z -> negb (Z.eqb (Z.land b (Z.shiftl 1 s)) 0) = Z.testbit b s.
Proof.
  intros Hs. rewrite Z.shiftl_1_l.
  destruct (Z.testbit b s) eqn:E.
  - destruct (Z.eqb_spec (Z.land b (2 ^ s)) 0) as [H0|H0]; [|reflexivity].
    exfalso. assert (Hb : Z.testbit (Z.land b (2 ^ s)) s = true).
    { rewrite Z.land_spec, E, Z.pow2_bits_true; auto. }
    rewrite H0, Z.testbit_0_l in Hb. discriminate.
  - assert (H0 : Z.land b (2 ^ s) = 0).
    { apply Z.bits_inj'. intros m Hm. rewrite Z.land_spec, Z.testbit_0_l.
      rewrite Z.pow2_bits_eqb by lia.
      destruct (Z.eqb_spec s m); [subst; rewrite E|]; apply andb_false_r || reflexivity. }
    rewrite H0. reflexivity.
Qed.

Lemma bits_below_inj (n : nat) (a b : Z) :
  0 <= a < 2 ^ Z.of_nat n -> 0 <= b < 2 ^ Z.of_nat n ->
  (forall m, 0 <= m < Z.of_nat n -> Z.testbit a m = Z.testbit b m) -> a = b.
Proof.
  intros Ha Hb H. apply Z.bits_inj'. intros m Hm.
  destruct (Z.lt_ge_cases m (Z.of_nat n)) as [Hlt|Hge]; [apply H; lia|].
  assert (Hhigh : forall c, 0 <= c < 2 ^ Z.of_nat n -> Z.testbit c m = false).
  { intros c Hc. destruct (Z.eq_dec c 0) as [->|Hc0]; [apply Z.testbit_0_l|].
    apply Z.bits_above_log2; [lia|].
    apply Z.log2_lt_pow2; [lia|].
    apply Z.lt_le_trans with (2 ^ Z.of_nat n); [lia|].
    apply Z.pow_le_mono_r; lia. }
  rewrite !Hhigh; auto.
Qed.

End Bits.

Section RowValues.
Variable vars : list string.
Variable binary : Z.

Let step := fun (tv : gmap string bool) (i : nat) =>
  match vars !! i with
  | Some key =>
      <[key := negb (Z.eqb (Z.land binary (Z.shiftl 1 (Z.of_nat (length vars - i - 1)))) 0)]> tv
  | None => tv
  end.

Lemma row_values_fold : row_values vars binary = foldl step ∅ (seq 0 (length vars)).
Proof. reflexivity. Qed.

Lemma foldl_step_notin (is : list nat) (m0 : gmap string bool) (j : nat) (k : string) :
  NoDup vars -> vars !! j = Some k -> ~ In j is -> foldl step m0 is !! k = m0 !! k.
Proof.
  intros Hnd Hj. revert m0. induction is as [|i is IH]; simpl; intros m0 Hn; [reflexivity|].
  rewrite IH by tauto. unfold step.
  destruct (vars !! i) as [key|] eqn:Hi; [|reflexivity].
  rewrite lookup_insert_ne; [reflexivity|].
  intros ->. apply Hn. left. exact (NoDup_lookup _ _ _ _ Hnd Hi Hj).
Qed.

Lemma foldl_step_in (is : list nat) (m0 : gmap string bool) (j : nat) (k : string) :
  NoDup vars -> vars !! j = Some k -> In j is ->
  foldl step m0 is !! k = Some (Z.testbit binary (Z.of_nat (length vars - j - 1))).
Proof.
  intros Hnd Hj. revert m0. induction is as [|i is IH]; simpl; intros m0 Hin; [contradiction|].
  destruct (in_dec Nat.eq_dec j is) as [Hjs|Hjs]; [apply IH; exact Hjs|].
  destruct Hin as [-> | Hin]; [|contradiction].
  rewrite (foldl_step_notin is _ j k Hnd Hj Hjs). unfold step. rewrite Hj.
  rewrite lookup_insert_eq. f_equal. apply land_shiftl_testbit. lia.
Qed.

Lemma foldl_step_absent (is : list nat) (m0 : gmap string bool) (k : string) :
  ~ In k vars -> foldl step m0 is !! k = m0 !! k.
Proof.
  intros Hk. revert m0. induction is as [|i is IH]; simpl; intros m0; [reflexivity|].
  rewrite IH. unfold step. destruct (vars !! i) as [key|] eqn:Hi; [|reflexivity].
  rewrite lookup_insert_ne; [reflexivity|].
  intros ->. apply Hk. apply list_elem_of_In. eapply list_elem_of_lookup_2. exact Hi.
Qed.

End RowValues.

Lemma row_values_lookup (vars : list string) (binary : Z) (j : nat) (k : string) :
  NoDup vars -> vars !! j = Some k ->
  row_values vars binary !! k = Some (Z.testbit binary (Z.of_nat (length vars - j - 1))).
Proof.
  intros Hnd Hj. rewrite row_values_fold. apply foldl_step_in; auto.
  apply in_seq. apply lookup_lt_Some in Hj. lia.
Qed.

Lemma row_values_absent (vars : list string) (binary : Z) (k : string) :
  ~ In k vars -> row_values vars binary !! k = None.
Proof. intros Hk. rewrite row_values_fold. apply foldl_step_absent; auto. Qed.


Lemma tree_evaluate_row (t : tree) (evs : list evaluation) (i : nat) (e : evaluation) :
  tree_evaluate t = Ok evs -> evs !! i = Some e ->
  i < 2 ^ length (variables t) /\
  truth_values e = row_values (variables t) (Z.of_nat i) /\
  evaluate (root t) (truth_values e) = Ok (truth_value e).
Proof.
  unfold tree_evaluate. intros H He.
  destruct (map_result_spec _ _ _ H) as [Hlen Hall].
  rewrite length_seq in Hlen.
  assert (Hi : i < 2 ^ length (variables t)) by (apply lookup_lt_Some in He; lia).
  split; [exact Hi|].
  assert (Hs : seq 0 (2 ^ length (variables t)) !! i = Some i)
    by (apply lookup_seq; lia).
  destruct (Hall i i Hs) as [y [Hy Hf]]. rewrite He in Hy. inversion Hy; subst y.
  destruct (evaluate (root t) (row_values (variables t) (Z.of_nat i))) as [r|err] eqn:Hr;
    simpl in Hf; [|discriminate].
  inversion Hf; subst e. simpl. auto.
Qed.

(** C5 *)
(** Claim C5: for a tree whose [variables] are distinct and cover its
    leaves, [Tree.evaluate] returns exactly [2^n] rows; row [i] (in order
    [0 .. 2^n - 1]) binds the [j]-th variable to bit [n-1-j] of [i] and no
    other name, its result is the evaluation of the root under that
    binding, and no two rows carry the same binding. *)
Theorem tree_evaluate_rows (t : tree) :
  NoDup (variables t) ->
  (forall x, In x (node_vars (root t)) -> In x (variables t)) ->
  exists evs,
    tree_evaluate t = Ok evs /\
    length evs = 2 ^ length (variables t) /\
    (forall i, i < 2 ^ length (variables t) ->
       exists e, evs !! i = Some e /\
         (forall j x, variables t !! j = Some x ->
            truth_values e !! x
            = Some (Z.testbit (Z.of_nat i) (Z.of_nat (length (variables t) - 1 - j)))) /\
         (forall x, ~ In x (variables t) -> truth_values e !! x = None) /\
         evaluate (root t) (truth_values e) = Ok (truth_value e)) /\
    (forall i i' e e', evs !! i = Some e -> evs !! i' = Some e' ->
       truth_values e = truth_values e' -> i = i').
Proof.
  intros Hnd Hcov.
  set (n := length (variables t)).
  destruct (map_result_exists
              (fun binary =>
                 let tv := row_values (variables t) (Z.of_nat binary) in
                 let* r := evaluate (root t) tv in Ok (mk_evaluation tv r))
              (seq 0 (2 ^ n))) as [evs Hevs].
  { intros b _. cbv beta zeta.
    destruct (evaluate_total (root t) (row_values (variables t) (Z.of_nat b))) as [r Hr].
    - intros x Hx. apply Hcov in Hx.
      apply list_elem_of_In, list_elem_of_lookup_1 in Hx as [j Hj].
      rewrite (row_values_lookup _ _ j x Hnd Hj). eauto.
    - rewrite Hr. simpl. eauto. }
  exists evs.
  assert (Hte : tree_evaluate t = Ok evs) by exact Hevs.
  destruct (map_result_spec _ _ _ Hevs) as [Hlen Hall].
  rewrite length_seq in Hlen.
  split; [exact Hte|]. split; [exact Hlen|]. split.
  - intros i Hi.
    destruct (lookup_lt_is_Some_2 evs i) as [e He]; [lia|].
    destruct (tree_evaluate_row t evs i e Hte He) as [_ [Htv Hev]].
    exists e. split; [exact He|]. split; [|split; [|exact Hev]].
    + intros j x Hj. rewrite Htv, (row_values_lookup _ _ j x Hnd Hj).
      do 3 f_equal. lia.
    + intros x Hx. rewrite Htv. apply row_values_absent. exact Hx.
  - intros i i' e e' He He' Heq.
    destruct (tree_evaluate_row t evs i e Hte He) as [Hi [Htv _]].
    destruct (tree_evaluate_row t evs i' e' Hte He') as [Hi' [Htv' _]].
    rewrite Htv, Htv' in Heq.
    assert (Hpow : Z.of_nat (2 ^ n) = (2 ^ Z.of_nat n)%Z) by (rewrite Nat2Z.inj_pow; reflexivity).
    apply Nat2Z.inj. apply (bits_below_inj n).
    + split; [lia|]. rewrite <- Hpow. apply inj_lt. exact Hi.
    + split; [lia|]. rewrite <- Hpow. apply inj_lt. exact Hi'.
    + intros m Hm.
      set (j := n - 1 - Z.to_nat m).
      destruct (lookup_lt_is_Some_2 (variables t) j) as [x Hx]; [unfold j, n in *; lia|].
      pose proof (row_values_lookup (variables t) (Z.of_nat i) j x Hnd Hx) as L1.
      pose proof (row_values_lookup (variables t) (Z.of_nat i') j x Hnd Hx) as L2.
      rewrite Heq, L2 in L1. inversion L1 as [Hb].
      replace (Z.of_nat (length (variables t) - j - 1)) with m in Hb
        by (unfold j, n in *; lia).
      symmetry. exact Hb.
Qed.

Lemma tree_evaluate_rows_witness :
  NoDup (variables (mk_tree (Expr "OR" (Var "a" false) (Var "b" false) false) ["a"; "b"])) /\
  (forall x, In x (node_vars (root (mk_tree (Expr "OR" (Var "a" false) (Var "b" false) false) ["a"; "b"])))
     -> In x (variables (mk_tree (Expr "OR" (Var "a" false) (Var "b" false) false) ["a"; "b"]))) /\
  exists evs,
    tree_evaluate (mk_tree (Expr "OR" (Var "a" false) (Var "b" false) false) ["a"; "b"]) = Ok evs /\
    length evs = 4.
Proof.
  assert (Hnd : NoDup (variables (mk_tree (Expr "OR" (Var "a" false) (Var "b" false) false) ["a"; "b"]))).
  { simpl. repeat constructor; rewrite ?list_elem_of_In; simpl; intuition discriminate. }
  assert (Hc : forall x, In x (node_vars (root (mk_tree (Expr "OR" (Var "a" false) (Var "b" false) false) ["a"; "b"])))
     -> In x (variables (mk_tree (Expr "OR" (Var "a" false) (Var "b" false) false) ["a"; "b"]))).
  { simpl. tauto. }
  split; [exact Hnd|]. split; [exact Hc|].
  destruct (tree_evaluate_rows _ Hnd Hc) as [evs [H1 [H2 _]]].
  exists evs. split; [exact H1|exact H2].
Defined.

Lemma seq_strongly_sorted (start len : nat) : StronglySorted lt (seq start len).
Proof.
  revert start. induction len as [|len IH]; intros start; simpl; constructor; [apply IH|].
  apply List.Forall_forall. intros x Hx. apply in_seq in Hx. lia.
Qed.

Lemma filter_strongly_sorted (f : nat -> bool) (l : list nat) :
  StronglySorted lt l -> StronglySorted lt (List.filter f l).
Proof.
  induction l as [|x l IH]; simpl; intros H; [constructor|].
  inversion H as [|? ? Hl Hf]; subst.
  destruct (f x); [constructor|]; auto.
  apply List.Forall_forall. intros y Hy. apply filter_In in Hy as [Hy _].
  rewrite List.Forall_forall in Hf. auto.
Qed.

Lemma row_truth_filter (evs : list evaluation) (f : bool -> bool) (b : bool) (d : nat) :
  (forall c, f c = true <-> c = b) ->
  In d (List.filter (fun d => f (row_truth evs d)) (seq 0 (length evs)))
  <-> exists e, evs !! d = Some e /\ truth_value e = b.
Proof.
  intros Hf. rewrite filter_In, in_seq. unfold row_truth. split.
  - intros [[_ Hd] Hb]. destruct (lookup_lt_is_Some_2 evs d) as [e He]; [lia|].
    rewrite He in Hb. apply Hf in Hb. eauto.
  - intros [e [He Hb]]. apply lookup_lt_Some in He as Hd. rewrite He.
    split; [lia|]. apply Hf. exact Hb.
Qed.

(** C6 *)
(** Claim C6: when the truth table of [t] can be built, [simplify] calls
    the minimizer exactly twice, first with the ascending row indices where
    [t] is true (maxterm flag off), then with the ascending row indices
    where [t] is false (maxterm flag on); it returns the minterm result for
    [get_minterm=True], the maxterm result for [get_minterm=False], and
    otherwise the shorter one, the minterm result on equal lengths. *)
Theorem simplify_calls_and_choice (QM : list string -> list nat -> bool -> string)
    (t : tree) (mode : option bool) (log0 : list qm_call) (evs : list evaluation) :
  tree_evaluate t = Ok evs ->
  exists mins maxs r,
    simplify QM t mode log0
      = Ok (r, app log0 [mk_qm_call (variables t) mins false;
                         mk_qm_call (variables t) maxs true]) /\
    StronglySorted lt mins /\ StronglySorted lt maxs /\
    (forall d, In d mins <-> exists e, evs !! d = Some e /\ truth_value e = true) /\
    (forall d, In d maxs <-> exists e, evs !! d = Some e /\ truth_value e = false) /\
    (mode = Some true -> r = QM (variables t) mins false) /\
    (mode = Some false -> r = QM (variables t) maxs true) /\
    (mode = None ->
       (String.length (QM (variables t) mins false)
          <= String.length (QM (variables t) maxs true) -> r = QM (variables t) mins false) /\
       (String.length (QM (variables t) maxs true)
          < String.length (QM (variables t) mins false) -> r = QM (variables t) maxs true)).
Proof.
  intros Hev.
  set (mins := List.filter (fun d => row_truth evs d) (seq 0 (length evs))).
  set (maxs := List.filter (fun d => negb (row_truth evs d)) (seq 0 (length evs))).
  set (mn := QM (variables t) mins false). set (mx := QM (variables t) maxs true).
  exists mins, maxs,
    (match mode with
     | Some true => mn | Some false => mx
     | None => if Nat.ltb (String.length mx) (String.length mn) then mx else mn
     end).
  split.
  { unfold simplify, mbind, lift, qm_solve, mret. rewrite Hev.
    rewrite <- app_assoc. destruct mode as [[]|]; reflexivity. }
  split; [apply filter_strongly_sorted, seq_strongly_sorted|].
  split; [apply filter_strongly_sorted, seq_strongly_sorted|].
  split; [intros d; apply (row_truth_filter evs (fun c => c));
          intros []; split; congruence|].
  split; [intros d; apply (row_truth_filter evs negb); intros []; simpl; split; congruence|].
  split; [intros ->; reflexivity|].
  split; [intros ->; reflexivity|].
  intros ->. split; intros Hl.
  - destruct (Nat.ltb_spec (String.length mx) (String.length mn)); [unfold mn, mx in *; lia|reflexivity].
  - destruct (Nat.ltb_spec (String.length mx) (String.length mn)); [reflexivity|unfold mn, mx in *; lia].
Qed.

Lemma simplify_calls_and_choice_witness :
  tree_evaluate or_tree = Ok or_tree_rows /\
  exists mins maxs r,
    simplify qm_example or_tree None []
      = Ok (r, app [] [mk_qm_call ["a"; "b"] mins false; mk_qm_call ["a"; "b"] maxs true]) /\
    StronglySorted lt mins /\ StronglySorted lt maxs.
Proof.
  assert (H : tree_evaluate or_tree = Ok or_tree_rows) by (vm_compute; reflexivity).
  split; [exact H|].
  destruct (simplify_calls_and_choice qm_example or_tree None [] _ H)
    as [mins [maxs [r [Hs [S1 [S2 _]]]]]].
  exists mins, maxs, r. split; [exact Hs|split; assumption].
Defined.

(* ================================================================== *)
(** * Parsing single identifiers, multi-character names and blank input *)

(** C2 *)
(** Claim C2 (code bug): [Tree("not a")] does not give a negated leaf.
    The input lexes and parses to a NOT over the identifier [a], and
    [__create_dict] builds [{"variable": "a", "has_not": True}], which
    [Variable(json=...)] would turn into the leaf [NOT a] / [not(a)];
    but [Tree.__init__] tests for the key ["value"], so the dict goes to
    [Expression(json=...)], whose missing ["operator"] key raises, and the
    tree construction fails with the invalid-expression error. *)
Theorem not_a_is_rejected :
  lex "not a" = Some [TWord "not"; TWord "a"] /\
  lark_parse [TWord "not"; TWord "a"] = Some (PNexpr "not" (PIdent "a")) /\
  create_dict (PNexpr "not" (PIdent "a"))
    = Ok (JDict [("variable", JStr "a"); ("has_not", JBool true)], ["a"]) /\
  py_in "value" (JDict [("variable", JStr "a"); ("has_not", JBool true)]) = Ok false /\
  (exists msg, expression_json (JDict [("variable", JStr "a"); ("has_not", JBool true)])
                 = Err (KeyError msg)) /\
  variable_json (JDict [("variable", JStr "a"); ("has_not", JBool true)]) = Ok (Var "a" true) /\
  variable_str "a" true = "NOT a" /\ functional (Var "a" true) = "not(a)" /\
  tree_init "not a" = Err invalid_expression.
Proof.
  split; [vm_compute; reflexivity|].
  split; [vm_compute; reflexivity|].
  split; [vm_compute; reflexivity|].
  split; [vm_compute; reflexivity|].
  split; [eexists; vm_compute; reflexivity|].
  repeat split; vm_compute; reflexivity.
Qed.

(** Claim C10 (code bug): the grammar reads [IDENT] as [CNAME], so a
    multi-character identifier is accepted.  ["ab or c"] is the disjunction
    of the variables [ab] and [c], for [Tree] and for [LogicTree], although
    the [LogicTree] docstring promises a [ValueError] for a variable of
    length > 1. *)
Theorem multi_char_identifier_accepted :
  tree_init "ab or c"
    = Ok (mk_tree (Expr "OR" (Var "ab" false) (Var "c" false) false) ["ab"; "c"]) /\
  ltree_init "ab or c"
    = Ok (mk_ltree (JDict [("left", JDict [("value", JStr "ab"); ("has_not", JBool false)]);
                           ("operator", JStr "OR");
                           ("right", JDict [("value", JStr "c"); ("has_not", JBool false)]);
                           ("has_not", JBool false)])
                   ["ab"; "c"] (LogicNode (LogicVar "ab" false) "OR" (LogicVar "c" false) false)).
Proof. split; vm_compute; reflexivity. Qed.

Lemma lex_go_blank (cs : list ascii) :
  Forall (fun c => is_ws c = true) cs -> lex_go cs [] = Some [].
Proof.
  induction cs as [|c cs IH]; intros H; [reflexivity|].
  inversion H as [|? ? Hc Hcs]; subst. simpl. rewrite Hc, (IH Hcs). reflexivity.
Qed.

(** X12: a blank input (empty, or only the white space Lark's [WS]
    ignores) gives no tokens, on which [start] derives nothing, so [Tree]
    refuses it with the invalid-expression error. *)
Theorem blank_input_rejected (s : string) :
  blank s -> tree_init s = Err invalid_expression.
Proof.
  intros H. unfold tree_init, lex. rewrite (lex_go_blank _ H).
  vm_compute. reflexivity.
Qed.

Lemma blank_input_rejected_witness :
  blank "  " /\ tree_init "  " = Err invalid_expression.
Proof.
  assert (H : blank "  ") by (repeat constructor).
  split; [exact H|exact (blank_input_rejected "  " H)].
Defined.

(* ================================================================== *)
(** * Where the parser attaches a leading NOT *)

Section ParseFacts.
Variable ts : list token.

Lemma token_eqb_eq (x y : token) : token_eqb x y = true -> x = y.
Proof.
  destruct x, y; simpl; try discriminate; intros H; apply String.eqb_eq in H; subst; reflexivity.
Qed.

Lemma tokens_eqb_eq (xs ys : list token) : tokens_eqb xs ys = true -> xs = ys.
Proof.
  revert ys; induction xs as [|x xs IH]; intros [|y ys]; simpl; try discriminate; auto.
  intros H. apply andb_prop in H as [H1 H2]. f_equal; auto using token_eqb_eq.
Qed.

Lemma op_atb_spec (l k k' : nat) :
  op_atb ts l k k' = true ->
  exists o, In o (op_rules l) /\ k' = k + length o /\ firstn (length o) (skipn k ts) = o.
Proof.
  unfold op_atb. intros H. apply existsb_exists in H as [o [Ho H]].
  apply andb_prop in H as [H1 H2]. apply Nat.eqb_eq in H1. apply tokens_eqb_eq in H2. eauto.
Qed.

Lemma op_rules_nonempty (l : nat) (o : list token) : In o (op_rules l) -> 0 < length o.
Proof.
  destruct l as [|[|[|[|[|[|l]]]]]]; simpl; intros H;
    repeat (destruct H as [<-|H]; [simpl; lia|]); contradiction.
Qed.

Lemma op_rules_first (l : nat) (o : list token) (x : token) :
  In o (op_rules l) -> hd_error o = Some x -> is_op_first x = true.
Proof.
  destruct l as [|[|[|[|[|[|l]]]]]]; simpl; intros H Hx;
    repeat (destruct H as [<-|H]; [simpl in Hx; inversion Hx; reflexivity|]); contradiction.
Qed.

Lemma op_rules_depth (l : nat) (o : list token) (x : token) :
  In o (op_rules l) -> In x o -> tdepth (Some x) = 0%Z.
Proof.
  destruct l as [|[|[|[|[|[|l]]]]]]; simpl; intros H Hx;
    repeat (destruct H as [<-|H];
            [simpl in Hx; repeat (destruct Hx as [<-|Hx]; [reflexivity|]); contradiction|]);
    contradiction.
Qed.

Lemma op_atb_lt (l k k' : nat) : op_atb ts l k k' = true -> k < k'.
Proof.
  intros H. destruct (op_atb_spec l k k' H) as [o [Ho [-> _]]].
  pose proof (op_rules_nonempty l o Ho). lia.
Qed.

Lemma op_atb_tok (l k k' q : nat) :
  op_atb ts l k k' = true -> k <= q < k' -> exists o x,
    In o (op_rules l) /\ In x o /\ tok ts q = Some x /\ (q = k -> hd_error o = Some x).
Proof.
  intros H Hq. destruct (op_atb_spec l k k' H) as [o [Ho [-> Hf]]].
  assert (Hn : nth_error o (q - k) = tok ts q).
  { rewrite <- Hf. rewrite nth_error_firstn.
    destruct (Nat.ltb_spec (q - k) (length o)); [|lia].
    rewrite nth_error_skipn. unfold tok. f_equal. lia. }
  destruct (nth_error o (q - k)) as [x|] eqn:Ex.
  - exists o, x. split; [exact Ho|]. split; [eapply nth_error_In; exact Ex|].
    split; [symmetry; exact Hn|]. intros ->. rewrite Nat.sub_diag in Ex.
    destruct o; simpl in *; [discriminate|exact Ex].
  - apply nth_error_None in Ex. lia.
Qed.

Lemma op_atb_first (l k k' : nat) :
  op_atb ts l k k' = true -> exists x, tok ts k = Some x /\ is_op_first x = true.
Proof.
  intros H. pose proof (op_atb_lt l k k' H).
  destruct (op_atb_tok l k k' k H) as [o [x [Ho [_ [Hx Hh]]]]]; [lia|].
  exists x. split; [exact Hx|]. apply (op_rules_first l o x Ho (Hh eq_refl)).
Qed.

Lemma depth_n_add (i a b : nat) :
  depth_n ts i (a + b) = (depth_n ts i a + depth_n ts (i + a) b)%Z.
Proof.
  revert i. induction a as [|a IH]; intros i; simpl.
  - rewrite Nat.add_0_r. reflexivity.
  - rewrite IH. replace (S i + a) with (i + S a) by lia. lia.
Qed.

Lemma depth_n_zero (i n : nat) :
  (forall q, i <= q < i + n -> tdepth (tok ts q) = 0%Z) -> depth_n ts i n = 0%Z.
Proof.
  revert i. induction n as [|n IH]; intros i H; simpl; [reflexivity|].
  rewrite (H i) by lia. rewrite IH; [reflexivity|]. intros q Hq. apply H. lia.
Qed.

Lemma depth_n_one (i : nat) : depth_n ts i 1 = tdepth (tok ts i).
Proof. simpl. lia. Qed.

Lemma op_atb_depth (l k k' q : nat) :
  op_atb ts l k k' = true -> k <= q < k' -> tdepth (tok ts q) = 0%Z.
Proof.
  intros H Hq. destruct (op_atb_tok l k k' q H Hq) as [o [x [Ho [Hx [Ht _]]]]].
  rewrite Ht. exact (op_rules_depth l o x Ho Hx).
Qed.

Lemma paren_at_tok (i j : nat) :
  paren_at ts i j = true ->
  (exists o, tok ts i = Some (TSym o) /\ (o = "(" \/ o = "[")) /\
  tdepth (tok ts i) = 1%Z /\ tdepth (tok ts j) = (-1)%Z.
Proof.
  unfold paren_at.
  destruct (tok ts i) as [[|o]|]; try discriminate.
  destruct (tok ts j) as [[|c]|]; try discriminate.
  unfold closes. intros H. apply orb_true_iff in H as [H|H];
    apply andb_prop in H as [H1 H2]; apply String.eqb_eq in H1, H2; subst;
    (split; [eexists; split; [reflexivity|auto]|split; reflexivity]).
Qed.

Lemma tilde_depth (x : token) : is_tilde x = true -> tdepth (Some x) = 0%Z.
Proof.
  destruct x as [s|s]; simpl; [reflexivity|]. intros H.
  apply orb_true_iff in H as [H|H]; apply String.eqb_eq in H; subst; reflexivity.
Qed.

Lemma tilde_keyword (s : string) : is_tilde (TWord s) = true -> is_keyword s = true.
Proof.
  simpl. intros H. apply orb_true_iff in H as [H|H]; apply String.eqb_eq in H; subst; reflexivity.
Qed.

Lemma D_lt (l i j : nat) : D ts l i j -> i < j.
Proof.
  induction 1 as [l i k k' j _ _ IH1 Hop _ IH2| | | |]; try lia.
  pose proof (op_atb_lt _ _ _ Hop). lia.
Qed.

Lemma D_depth (l i j : nat) :
  D ts l i j ->
  depth_n ts i (j - i) = 0%Z /\ forall z, i <= z <= j -> (0 <= depth_n ts i (z - i))%Z.
Proof.
  induction 1 as [l i k k' j Hl Hik IH1 Hop Hkj IH2
                 |l i j Hl _ IH
                 |i s Ht
                 |i j x Ht Htil Hij IH
                 |i j Hp Hij IH].
  - pose proof (D_lt _ _ _ Hik). pose proof (D_lt _ _ _ Hkj).
    pose proof (op_atb_lt _ _ _ Hop).
    assert (Hz : depth_n ts k (k' - k) = 0%Z).
    { apply depth_n_zero. intros q Hq. apply (op_atb_depth l k k' q Hop); lia. }
    destruct IH1 as [B1 P1]. destruct IH2 as [B2 P2]. split.
    + replace (j - i) with ((k - i) + ((k' - k) + (j - k'))) by lia.
      rewrite !depth_n_add. replace (i + (k - i)) with k by lia.
      replace (k + (k' - k)) with k' by lia. lia.
    + intros z Hz'.
      destruct (Nat.le_gt_cases z k) as [Hzk|Hzk]; [apply P1; lia|].
      destruct (Nat.le_gt_cases z k') as [Hzk'|Hzk'].
      * replace (z - i) with ((k - i) + (z - k)) by lia. rewrite depth_n_add.
        replace (i + (k - i)) with k by lia.
        rewrite (depth_n_zero k (z - k)); [lia|].
        intros q Hq. apply (op_atb_depth l k k' q Hop); lia.
      * replace (z - i) with ((k - i) + ((k' - k) + (z - k'))) by lia.
        rewrite !depth_n_add. replace (i + (k - i)) with k by lia.
        replace (k + (k' - k)) with k' by lia.
        specialize (P2 z ltac:(lia)). lia.
  - exact IH.
  - replace (S i - i) with 1 by lia. rewrite depth_n_one, Ht. split; [reflexivity|].
    intros z Hz. destruct (Nat.eq_dec z i) as [->|Hne].
    + rewrite Nat.sub_diag. simpl. lia.
    + replace (z - i) with 1 by lia. rewrite depth_n_one, Ht. simpl. lia.
  - pose proof (D_lt _ _ _ Hij). destruct IH as [B P].
    assert (H0 : tdepth (tok ts i) = 0%Z) by (rewrite Ht; apply tilde_depth; exact Htil).
    split.
    + replace (j - i) with (1 + (j - S i)) by lia. rewrite depth_n_add, depth_n_one, H0.
      replace (i + 1) with (S i) by lia. lia.
    + intros z Hz. destruct (Nat.eq_dec z i) as [->|Hne].
      * rewrite Nat.sub_diag. simpl. lia.
      * replace (z - i) with (1 + (z - S i)) by lia. rewrite depth_n_add, depth_n_one, H0.
        replace (i + 1) with (S i) by lia. specialize (P z ltac:(lia)). lia.
  - pose proof (D_lt _ _ _ Hij). destruct IH as [B P].
    destruct (paren_at_tok i j Hp) as [_ [Ho Hc]].
    split.
    + replace (S j - i) with (1 + ((j - S i) + 1)) by lia.
      rewrite !depth_n_add, !depth_n_one, Ho.
      replace (i + 1) with (S i) by lia. replace (S i + (j - S i)) with j by lia.
      rewrite Hc. lia.
    + intros z Hz. destruct (Nat.eq_dec z i) as [->|Hne].
      * rewrite Nat.sub_diag. simpl. lia.
      * destruct (Nat.eq_dec z (S j)) as [->|Hne'].
        -- replace (S j - i) with (1 + ((j - S i) + 1)) by lia.
           rewrite !depth_n_add, !depth_n_one, Ho.
           replace (i + 1) with (S i) by lia. replace (S i + (j - S i)) with j by lia.
           rewrite Hc. lia.
        -- replace (z - i) with (1 + (z - S i)) by lia. rewrite depth_n_add, depth_n_one, Ho.
           replace (i + 1) with (S i) by lia. specialize (P z ltac:(lia)). lia.
Qed.

(** Two groups opened at the same place close at the same place. *)
Lemma close_unique (x a b : nat) :
  D ts 0 x a -> D ts 0 x b ->
  tdepth (tok ts a) = (-1)%Z -> tdepth (tok ts b) = (-1)%Z -> a = b.
Proof.
  assert (Hlt : forall a b, D ts 0 x a -> D ts 0 x b ->
                  tdepth (tok ts a) = (-1)%Z -> a < b -> False).
  { intros a' b' Ha Hb Hca Hab. pose proof (D_lt _ _ _ Ha).
    destruct (D_depth _ _ _ Ha) as [Ba _]. destruct (D_depth _ _ _ Hb) as [_ Pb].
    specialize (Pb (S a') ltac:(lia)).
    replace (S a' - x) with ((a' - x) + 1) in Pb by lia.
    rewrite depth_n_add, depth_n_one in Pb. replace (x + (a' - x)) with a' in Pb by lia.
    lia. }
  intros Ha Hb Hca Hcb. destruct (lt_eq_lt_dec a b) as [[H|H]|H]; auto.
  - exfalso. exact (Hlt a b Ha Hb Hca H).
  - exfalso. exact (Hlt b a Hb Ha Hcb H).
Qed.

Lemma derb_sound (fuel : nat) :
  forall l i j, l <= 6 -> derb ts fuel l i j = true -> D ts l i j.
Proof.
  induction fuel as [|f IH]; intros l i j Hl H; simpl in H; [discriminate|].
  destruct (Nat.ltb_spec l 6) as [Hl6|Hl6].
  - apply orb_true_iff in H as [H|H].
    + apply existsb_exists in H as [k [_ H]]. apply existsb_exists in H as [k' [_ H]].
      apply andb_prop in H as [H H2]. apply andb_prop in H as [Hop H1].
      apply (D_bin ts l i k k' j Hl6); [apply IH; auto; lia|exact Hop|apply IH; auto; lia].
    + apply D_pass; [exact Hl6|]. apply IH; auto; lia.
  - assert (l = 6) by lia. subst l.
    destruct (tok ts i) as [x|] eqn:Ht; [|discriminate].
    apply orb_true_iff in H as [H|H]; [apply orb_true_iff in H as [H|H]|].
    + destruct x as [s|s]; [|discriminate]. apply Nat.eqb_eq in H. subst j.
      apply (D_ident ts i s Ht).
    + apply andb_prop in H as [Htil H]. apply (D_not ts i j x Ht Htil). apply IH; auto; lia.
    + destruct j as [|j]; [discriminate|]. apply andb_prop in H as [Hp H].
      apply (D_paren ts i j Hp). apply IH; auto; lia.
Qed.

Lemma derb_complete (l i j : nat) :
  D ts l i j -> forall fuel, 7 * (j - i) + (6 - l) < fuel -> derb ts fuel l i j = true.
Proof.
  induction 1 as [l i k k' j Hl Hik IH1 Hop Hkj IH2
                 |l i j Hl Hij IH
                 |i s Ht
                 |i j x Ht Htil Hij IH
                 |i j Hp Hij IH];
    intros [|f] Hf; try lia; simpl.
  - pose proof (D_lt _ _ _ Hik). pose proof (D_lt _ _ _ Hkj). pose proof (op_atb_lt _ _ _ Hop).
    destruct (Nat.ltb_spec l 6); [|lia].
    apply orb_true_iff; left. apply existsb_exists. exists k. split; [apply in_seq; lia|].
    apply existsb_exists. exists k'. split; [apply in_seq; lia|].
    rewrite Hop, IH1, IH2 by lia. reflexivity.
  - destruct (Nat.ltb_spec l 6); [|lia].
    apply orb_true_iff; right. apply IH. lia.
  - rewrite Ht. rewrite Nat.eqb_refl. reflexivity.
  - pose proof (D_lt _ _ _ Hij). rewrite Ht.
    apply orb_true_iff; left. apply orb_true_iff; right.
    rewrite Htil, IH by lia. reflexivity.
  - pose proof (D_lt _ _ _ Hij). destruct (tok ts i) eqn:Ht.
    + apply orb_true_iff; right. rewrite Hp, IH by lia. reflexivity.
    + unfold paren_at in Hp. rewrite Ht in Hp. discriminate.
Qed.

Lemma der_complete (l i j : nat) : D ts l i j -> der ts l i j = true.
Proof. intros H. unfold der. apply (derb_complete l i j H). lia. Qed.

Lemma Res_D (l i j : nat) (P : ptree) : Res ts l i j P -> D ts l i j.
Proof.
  induction 1 as [l i k k' j L R Hl _ IH1 Hop _ IH2|l i j P Hl _ _ IH| i s Ht
                 |i j x P Ht Htil _ IH|i j P Hp _ IH].
  - exact (D_bin ts l i k k' j Hl IH1 Hop IH2).
  - exact (D_pass ts l i j Hl IH).
  - exact (D_ident ts i s Ht).
  - exact (D_not ts i j x Ht Htil IH).
  - exact (D_paren ts i j Hp IH).
Qed.

Lemma resolve_sound (fuel : nat) :
  forall l i j P, l <= 6 -> resolve ts fuel l i j = Some P -> Res ts l i j P.
Proof.
  induction fuel as [|f IH]; intros l i j P Hl H; [discriminate|]. cbn [resolve] in H.
  destruct (Nat.ltb_spec l 6) as [Hl6|Hl6].
  - destruct (find_split ts l i j) as [[k k']|] eqn:Hf.
    + apply find_some in Hf as [_ Hf]. cbn [fst snd] in Hf.
      apply andb_prop in Hf as [Hf _]. apply andb_prop in Hf as [Hop _].
      destruct (resolve ts f l i k) as [L|] eqn:HL; [|discriminate].
      destruct (resolve ts f (S l) k' j) as [R|] eqn:HR; [|discriminate].
      inversion H; subst P.
      apply (R_bin ts l i k k' j L R Hl6); [apply IH; auto; lia|exact Hop|apply IH; auto; lia].
    + apply R_pass; [exact Hl6| |apply IH; auto; lia].
      intros k k' H1 Hop H2.
      pose proof (D_lt _ _ _ H1). pose proof (D_lt _ _ _ H2). pose proof (op_atb_lt _ _ _ Hop).
      destruct (op_atb_spec l k k' Hop) as [o [Ho [Hk' _]]].
      assert (Hin : In (k, k')
                (flat_map (fun o => map (fun k => (k, k + length o)) (seq (S i) (j - S i)))
                   (op_rules l))).
      { apply in_flat_map. exists o. split; [exact Ho|]. rewrite Hk'.
        apply (in_map (fun k => (k, k + length o))). apply in_seq. lia. }
      pose proof (find_none _ _ Hf _ Hin) as Hn. cbn [fst snd] in Hn.
      rewrite Hop, (der_complete _ _ _ H1), (der_complete _ _ _ H2) in Hn. discriminate.
  - assert (l = 6) by lia. subst l.
    destruct (tok ts i) as [x|] eqn:Ht; [|discriminate].
    destruct (is_tilde x && der ts 0 (S i) j) eqn:E.
    + apply andb_prop in E as [Htil _].
      destruct (resolve ts f 0 (S i) j) as [P'|] eqn:HP; cbn [option_map] in H; [|discriminate].
      inversion H; subst P. apply (R_not ts i j x P' Ht Htil). apply IH; auto; lia.
    + destruct x as [s|s].
      * destruct (Nat.eqb_spec j (S i)); [|discriminate]. subst j. inversion H; subst P.
        apply (R_ident ts i s Ht).
      * destruct j as [|j]; [discriminate|].
        destruct (paren_at ts i j && der ts 0 (S i) j) eqn:E2; [|discriminate].
        apply andb_prop in E2 as [Hp _]. apply (R_paren ts i j P Hp). apply IH; auto; lia.
Qed.

Lemma lark_parse_sound (P : ptree) :
  lark_parse ts = Some P -> Res ts 0 0 (length ts) P /\ D ts 0 0 (length ts).
Proof.
  unfold lark_parse. destruct (der ts 0 0 (length ts)) eqn:Hd; [|discriminate].
  intros H. split; [apply (resolve_sound (7 * length ts + 7) 0 0 (length ts) P); [lia|exact H]|].
  apply (derb_sound (7 * (length ts - 0) + 7) 0 0 (length ts)); [lia|exact Hd].
Qed.

Lemma lift_D (l m i j : nat) : D ts l i j -> m <= l -> l <= 6 -> D ts m i j.
Proof.
  intros H Hml. revert H. induction Hml as [|l Hml IH]; intros H Hl; [exact H|].
  apply IH; [apply D_pass; [lia|exact H]|lia].
Qed.

(** An operator of level [a] and an operand of level [a+1] may follow any
    derivation of a level [p <= a]. *)
Lemma extend_right (p x y a y' z : nat) :
  D ts p x y -> op_atb ts a y y' = true -> p <= a -> a < 6 -> D ts (S a) y' z -> D ts p x z.
Proof.
  intros H. revert a y' z.
  induction H as [l i k k' j Hl Hik _ Hop Hkj IH2
                 |l i j Hl Hij IH
                 |i s Ht
                 |i j x Ht Htil Hij _
                 |i j Hp Hij _];
    intros a y' z Hop' Hpa Ha Hz.
  - destruct (Nat.eq_dec l a) as [->|Hne].
    + apply (D_bin ts a i j y' z Ha); [|exact Hop'|exact Hz].
      exact (D_bin ts a i k k' j Hl Hik Hop Hkj).
    + apply (D_bin ts l i k k' z Hl Hik Hop). apply (IH2 a y' z Hop'); [lia|lia|exact Hz].
  - destruct (Nat.eq_dec l a) as [->|Hne].
    + apply (D_bin ts a i j y' z Ha); [apply D_pass; [exact Hl|exact Hij]|exact Hop'|exact Hz].
    + apply D_pass; [exact Hl|]. apply (IH a y' z Hop'); [lia|lia|exact Hz].
  - lia.
  - lia.
  - lia.
Qed.

Section LeadingNot.
Variables (t : nat) (x0 : token).
Hypothesis Htok0 : tok ts 0 = Some x0.
Hypothesis Htil0 : is_tilde x0 = true.
Hypothesis Hterm : single_term ts t = true.

Lemma term_two : 2 <= t.
Proof.
  unfold single_term in Hterm. destruct (tok ts 1) as [[s|s]|]; try discriminate.
  - apply andb_prop in Hterm as [_ H]. apply Nat.eqb_eq in H. lia.
  - apply andb_prop in Hterm as [H _]. apply andb_prop in H as [H _].
    apply Nat.ltb_lt in H. lia.
Qed.

Lemma no_op_at_1 (l k' : nat) : op_atb ts l 1 k' = true -> False.
Proof.
  intros H. destruct (op_atb_first l 1 k' H) as [x [Hx Hop]].
  unfold single_term in Hterm. rewrite Hx in Hterm. destruct x as [s|s].
  - apply andb_prop in Hterm as [Hk _]. simpl in Hop. rewrite Hop in Hk. discriminate.
  - apply andb_prop in Hterm as [H1 _]. apply andb_prop in H1 as [_ Hp].
    destruct (paren_at_tok 1 (t - 1) Hp) as [[o [Ho Hoo]] _].
    rewrite Hx in Ho. inversion Ho; subst o.
    destruct Hoo as [->| ->]; discriminate.
Qed.

Lemma term_at_1 (j : nat) : D ts 6 1 j -> j = t.
Proof.
  intros H. inversion H as [l i k k' j' Hl| l i j' Hl | i s Ht | i j' x Ht Htil Hd | i j' Hp Hd];
    subst; try lia.
  - unfold single_term in Hterm. rewrite Ht in Hterm.
    apply andb_prop in Hterm as [_ H2]. apply Nat.eqb_eq in H2. lia.
  - exfalso. unfold single_term in Hterm. rewrite Ht in Hterm. destruct x as [s|s].
    + apply andb_prop in Hterm as [Hk _]. rewrite (tilde_keyword s Htil) in Hk. discriminate.
    + apply andb_prop in Hterm as [H1 _]. apply andb_prop in H1 as [_ Hp].
      destruct (paren_at_tok 1 (t - 1) Hp) as [[o [Ho Hoo]] _].
      rewrite Ht in Ho. inversion Ho; subst o.
      destruct Hoo as [->| ->]; discriminate.
  - destruct (paren_at_tok 1 j' Hp) as [[o [Ho _]] [_ Hc]].
    unfold single_term in Hterm. rewrite Ho in Hterm.
    apply andb_prop in Hterm as [H1 Hd2]. apply andb_prop in H1 as [Hlt Hp2].
    apply Nat.ltb_lt in Hlt.
    destruct (paren_at_tok 1 (t - 1) Hp2) as [_ [_ Hc2]].
    apply (derb_sound (7 * (t - 1 - 2) + 7) 0 2 (t - 1)) in Hd2; [|lia].
    pose proof (close_unique 2 j' (t - 1) Hd Hd2 Hc Hc2). lia.
Qed.

(** A derivation starting right after the NOT either is the term [T] or
    splits at some level on an operator after [T]. *)
Lemma start_1 (l j : nat) :
  D ts l 1 j ->
  j = t \/ (t < j /\ exists m k k', l <= m /\ m < 6 /\ D ts m 1 k /\
                                    op_atb ts m k k' = true /\ D ts (S m) k' j).
Proof.
  intros H. remember 1 as i eqn:Ei in H.
  induction H as [l i k k' j Hl Hik IH1 Hop Hkj _
                 |l i j Hl Hij IH
                 |i s Ht
                 |i j x Ht Htil Hij _
                 |i j Hp Hij _]; subst i.
  - right. pose proof (D_lt _ _ _ Hkj). pose proof (op_atb_lt _ _ _ Hop).
    split; [destruct (IH1 eq_refl) as [->|[Ht _]]; lia|].
    exists l, k, k'. repeat split; auto.
  - destruct (IH eq_refl) as [->|[Ht [m [k [k' [Hm Hrest]]]]]]; [left; reflexivity|].
    right. split; [exact Ht|]. exists m, k, k'. split; [lia|exact Hrest].
  - left. apply term_at_1. apply (D_ident ts 1 s Ht).
  - left. apply term_at_1. apply (D_not ts 1 j x Ht Htil Hij).
  - left. apply term_at_1. apply (D_paren ts 1 j Hp Hij).
Qed.

Lemma start_0 (l j : nat) : D ts l 0 j -> j = 1 \/ t <= j.
Proof.
  intros H. remember 0 as i eqn:Ei in H.
  induction H as [l i k k' j Hl Hik IH1 Hop Hkj _
                 |l i j Hl Hij IH
                 |i s Ht
                 |i j x Ht Htil Hij _
                 |i j Hp Hij _]; subst i.
  - pose proof (D_lt _ _ _ Hkj). pose proof (op_atb_lt _ _ _ Hop).
    destruct (IH1 eq_refl) as [->|Hk]; [exfalso; exact (no_op_at_1 l k' Hop)|]. lia.
  - exact (IH eq_refl).
  - left. reflexivity.
  - right. destruct (start_1 0 j Hij) as [->|[Ht' _]]; lia.
  - exfalso. destruct (paren_at_tok 0 j Hp) as [[o [Ho Hoo]] _].
    rewrite Htok0 in Ho. inversion Ho; subst x0.
    destruct Hoo as [->| ->]; discriminate.
Qed.

(** Following left operands from a resolved derivation of the tokens
    [0 .. j-1], none of whose levels below [l] splits them, reaches the
    NOT, whose operand is resolved over exactly [1 .. t-1]. *)
Lemma spine (l j : nat) (P : ptree) :
  Res ts l 0 j P -> t <= j ->
  (forall m, m < l -> forall k k', D ts m 0 k -> op_atb ts m k k' = true ->
                                  D ts (S m) k' j -> False) ->
  exists PT, left_not P = Some PT /\ Res ts 0 1 t PT.
Proof.
  intros H. remember 0 as i eqn:Ei in H.
  induction H as [l i k k' j L R Hl HL IHL Hop HR _
                 |l i j P Hl Hns HP IH
                 |i s Ht
                 |i j x P Ht Htil HP _
                 |i j P Hp HP _]; subst i; intros Htj Hinv.
  - simpl. apply IHL; [reflexivity| |].
    + destruct (start_0 l k (Res_D _ _ _ _ HL)) as [->|Hk]; [|exact Hk].
      exfalso. exact (no_op_at_1 l k' Hop).
    + intros m Hm k1 k1' H1 Hop1 H2. apply (Hinv m ltac:(lia) k1 k1' H1 Hop1).
      apply (extend_right (S m) k1' k l k' j H2 Hop); [lia|exact Hl|exact (Res_D _ _ _ _ HR)].
  - apply IH; [reflexivity|exact Htj|]. intros m Hm.
    destruct (Nat.eq_dec m l) as [->|Hne]; [exact Hns|]. apply Hinv. lia.
  - pose proof term_two. lia.
  - exists P. split; [reflexivity|].
    destruct (start_1 0 j (Res_D _ _ _ _ HP)) as [->|[Hlt [m [k [k' [_ [Hm [H1 [Hop H2]]]]]]]]];
      [exact HP|].
    exfalso. apply (Hinv m Hm k k'); [|exact Hop|exact H2].
    apply (lift_D 6 m 0 k); [|lia|lia].
    apply (D_not ts 0 k x Ht Htil). apply (lift_D m 0 1 k H1); lia.
  - exfalso. destruct (paren_at_tok 0 j Hp) as [[o [Ho Hoo]] _].
    rewrite Htok0 in Ho. inversion Ho; subst x0.
    destruct Hoo as [->| ->]; discriminate.
Qed.

End LeadingNot.
End ParseFacts.

(** X1: a leading NOT takes exactly the single term after it.  For any
    tokens starting with [TILDE] whose tokens [1 .. t-1] are a single term
    [T] (a non-keyword identifier or a bracketed group), every resolution
    [Res] of the tokens, whichever binary split it takes where several
    derive, has at the end of its chain of left operands the NOT applied to
    a resolution of exactly [T]: the text after [T] becomes right operands
    of operators above the NOT. *)
Theorem leading_not_binds_single_term (ts : list token) (t : nat) (x : token) (P : ptree) :
  tok ts 0 = Some x -> is_tilde x = true -> single_term ts t = true ->
  Res ts 0 0 (length ts) P ->
  exists PT, left_not P = Some PT /\ Res ts 0 1 t PT.
Proof.
  intros Ht Htil Hst HR. pose proof (Res_D ts 0 0 (length ts) P HR) as HD.
  apply (spine ts t x Ht Htil Hst 0 (length ts) P HR); [|intros m Hm; lia].
  destruct (start_0 ts t x Ht Htil Hst 0 (length ts) HD) as [Hn|Hn]; [|exact Hn].
  exfalso. unfold single_term in Hst. unfold tok in Hst.
  destruct (nth_error ts 1) eqn:E; [|discriminate].
  assert (1 < length ts) by (apply nth_error_Some; rewrite E; discriminate).
  lia.
Qed.

Lemma leading_not_binds_single_term_witness :
  tok not_group_tokens 0 = Some (TWord "not") /\ is_tilde (TWord "not") = true /\
  single_term not_group_tokens 6 = true /\
  Res not_group_tokens 0 0 (length not_group_tokens) not_group_parse /\
  exists PT, left_not not_group_parse = Some PT /\ Res not_group_tokens 0 1 6 PT.
Proof.
  assert (H1 : tok not_group_tokens 0 = Some (TWord "not")) by reflexivity.
  assert (H2 : is_tilde (TWord "not") = true) by reflexivity.
  assert (H3 : single_term not_group_tokens 6 = true) by (vm_compute; reflexivity).
  assert (Hp : lark_parse not_group_tokens = Some not_group_parse) by (vm_compute; reflexivity).
  pose proof (proj1 (lark_parse_sound not_group_tokens _ Hp)) as H4.
  split; [exact H1|]. split; [exact H2|]. split; [exact H3|]. split; [exact H4|].
  exact (leading_not_binds_single_term not_group_tokens 6 (TWord "not") _ H1 H2 H3 H4).
Defined.

(** C1 (code bug): the parse of ["not a or b"] is the OR of the negated
    leaf [a] and the leaf [b], but [Expression.functional] prints the
    stored operator code unchanged, so the functional form is
    ["OR(not(a), b)"] and not ["or(not(a), b)"] as its docstring gives. *)
Theorem not_a_or_b_functional :
  tree_init "not a or b"
    = Ok (mk_tree (Expr "OR" (Var "a" true) (Var "b" false) false) ["a"; "b"]) /\
  functional (Expr "OR" (Var "a" true) (Var "b" false) false) = "OR(not(a), b)" /\
  functional (Expr "OR" (Var "a" true) (Var "b" false) false) <> "or(not(a), b)".
Proof.
  split; [vm_compute; reflexivity|]. split; [reflexivity|].
  vm_compute. discriminate.
Qed.

(* ================================================================== *)
(** * The rest of the code: construction, LogicTree, tables *)

Lemma add_new_In (l acc : list string) (x : string) :
  In x (add_new acc l) <-> In x acc \/ In x l.
Proof.
  unfold add_new. revert acc. induction l as [|v l IH]; intros acc; simpl.
  - tauto.
  - rewrite IH. destruct (existsb (String.eqb v) acc) eqn:E.
    + apply existsb_exists in E as (y & Hy & Hyv). apply String.eqb_eq in Hyv. subst y.
      split; [tauto|]. intros [H|[H|H]]; subst; tauto.
    + rewrite in_app_iff. simpl. split; intros; intuition.
Qed.

Lemma add_new_NoDup (l acc : list string) : NoDup acc -> NoDup (add_new acc l).
Proof.
  unfold add_new. revert acc. induction l as [|v l IH]; intros acc Hacc; simpl; [exact Hacc|].
  apply IH. destruct (existsb (String.eqb v) acc) eqn:E; [exact Hacc|].
  apply NoDup_app. split; [exact Hacc|]. split; [|apply NoDup_singleton].
  intros y Hy Hy'. apply list_elem_of_In in Hy. apply list_elem_of_In in Hy'.
  destruct Hy' as [<-|[]].
  assert (existsb (String.eqb v) acc = true) by (apply existsb_exists; exists v; split; [exact Hy|apply String.eqb_refl]).
  congruence.
Qed.

Lemma node_vars_not (n : node) : node_vars (node_not n) = node_vars n.
Proof. destruct n; reflexivity. Qed.

Lemma create_dict_node (p : ptree) :
  create_dict p = Ok (node_dict (ptree_node p), ptree_idents p).
Proof.
  induction p as [data l IHl r IHr | tl e IH | s]; simpl.
  - rewrite IHl, IHr. reflexivity.
  - rewrite IH. simpl. destruct (ptree_node e); reflexivity.
  - reflexivity.
Qed.

Lemma ptree_idents_node (p : ptree) :
  NoDup (ptree_idents p) /\ (forall x, In x (ptree_idents p) <-> In x (node_vars (ptree_node p))).
Proof.
  induction p as [data l [_ IHl] r [_ IHr] | tl e [_ IH] | s]; simpl.
  - split; [apply add_new_NoDup; constructor|].
    intros x. rewrite add_new_In, !in_app_iff, IHl, IHr. simpl. tauto.
  - rewrite node_vars_not. split; [apply add_new_NoDup; constructor|].
    intros x. rewrite add_new_In, IH. simpl. tauto.
  - split; [apply NoDup_singleton|reflexivity].
Qed.

Lemma node_dict_json (n : node) :
  child_json (node_dict n) = Ok n /\
  (match n with Var _ _ => True | Expr _ _ _ _ => expression_json (node_dict n) = Ok n end).
Proof.
  induction n as [v hn | op l [IHl _] r [IHr _] hn]; [split; reflexivity|].
  assert (E : expression_json (node_dict (Expr op l r hn)) = Ok (Expr op l r hn)).
  { simpl. unfold child_json in IHl, IHr. rewrite IHl, IHr. reflexivity. }
  split; [|exact E]. unfold child_json. simpl. exact E.
Qed.

Lemma str_lt_total (a b : string) :
  (String.ltb b a || String.eqb b a) = false -> String.ltb a b = true.
Proof.
  intros H. apply orb_false_iff in H as [H1 H2]. unfold String.ltb in *.
  rewrite String.compare_antisym.
  destruct (String.compare b a) eqn:E; simpl; try reflexivity; try discriminate.
  apply String.compare_eq_iff in E. subst. rewrite String.eqb_refl in H2. discriminate.
Qed.

Lemma insert_sorted_perm (x : string) (l : list string) :
  Permutation (insert_sorted x l) (x :: l).
Proof.
  induction l as [|y l IH]; simpl; [reflexivity|].
  destruct (String.ltb y x || String.eqb y x); [|reflexivity].
  rewrite IH. apply perm_swap.
Qed.

Lemma sort_strings_perm (l : list string) : Permutation (sort_strings l) l.
Proof.
  unfold sort_strings. rewrite <- (app_nil_r l) at 2. generalize (@nil string) as acc.
  induction l as [|x l IH]; intros acc; simpl; [reflexivity|].
  rewrite IH, insert_sorted_perm. symmetry. apply Permutation_middle.
Qed.

Lemma insert_sorted_hd (x y : string) (l : list string) :
  HdRel str_le y l -> str_le y x -> HdRel str_le y (insert_sorted x l).
Proof.
  intros Hd Hyx. destruct l as [|z l]; simpl; [constructor; exact Hyx|].
  destruct (String.ltb z x || String.eqb z x); constructor; [inversion Hd; assumption|exact Hyx].
Qed.

Lemma insert_sorted_sorted (x : string) (l : list string) :
  Sorted str_le l -> Sorted str_le (insert_sorted x l).
Proof.
  induction l as [|y l IH]; intros Hs; simpl; [repeat constructor|].
  inversion Hs as [|? ? Hl Hd]; subst.
  destruct (String.ltb y x || String.eqb y x) eqn:E.
  - constructor; [exact (IH Hl)|]. apply insert_sorted_hd; assumption.
  - constructor; [exact Hs|]. constructor. unfold str_le. rewrite (str_lt_total x y E). reflexivity.
Qed.

Lemma sort_strings_sorted (l : list string) : Sorted str_le (sort_strings l).
Proof.
  unfold sort_strings. assert (H : Sorted str_le (@nil string)) by constructor. revert H.
  generalize (@nil string) as acc. induction l as [|x l IH]; intros acc H; simpl; [exact H|].
  apply IH, insert_sorted_sorted, H.
Qed.

Lemma sorted_strict (l : list string) : Sorted str_le l -> NoDup l -> strictly_sorted l.
Proof.
  unfold strictly_sorted. induction 1 as [|a l Hs IH Hd]; intros Hn; constructor.
  - apply IH. apply NoDup_cons in Hn. tauto.
  - destruct Hd as [|b l' Hab]; constructor. apply NoDup_cons in Hn as [Hn _].
    unfold str_le in Hab. destruct (String.ltb a b) eqn:E; [reflexivity|].
    simpl in Hab. apply String.eqb_eq in Hab. subst. exfalso. apply Hn. left.
Qed.

Lemma sort_strings_props (vs : list string) :
  NoDup vs ->
  strictly_sorted (sort_strings vs) /\ NoDup (sort_strings vs) /\
  (forall x, In x (sort_strings vs) <-> In x vs).
Proof.
  intros Hn. assert (Hp := sort_strings_perm vs).
  assert (Hn' : NoDup (sort_strings vs)) by (rewrite Hp; exact Hn).
  split; [apply sorted_strict; [apply sort_strings_sorted|exact Hn']|].
  split; [exact Hn'|]. intros x. split; apply Permutation_in; [exact Hp|symmetry; exact Hp].
Qed.

Lemma lex_go_words (cs word : list ascii) (ts : list token) (s : string) :
  lex_go cs word = Some ts -> In (TWord s) ts -> s <> "".
Proof.
  assert (Emit : forall w ts', In (TWord s) (emit w ts') -> In (TWord s) ts' \/ s <> "").
  { intros [|c w] ts' H; simpl in H; [left; exact H|].
    destruct H as [H|H]; [right; injection H as <-; discriminate|left; exact H]. }
  remember (length cs) as n eqn:En. assert (Hn : length cs <= n) by lia. clear En.
  revert cs word ts Hn. induction n as [|n IH]; intros cs word ts Hn H Hin.
  { destruct cs; [|simpl in Hn; lia]. simpl in H. injection H as <-.
    destruct (Emit word [] Hin) as [[]|?]; assumption. }
  destruct cs as [|c rest]; simpl in H.
  { injection H as <-. destruct (Emit word [] Hin) as [[]|?]; assumption. }
  simpl in Hn.
  destruct (negb _ && is_cname_cont c).
  { exact (IH rest _ ts ltac:(lia) H Hin). }
  destruct (is_ws c).
  { destruct (lex_go rest []) as [ts'|] eqn:E; simpl in H; [injection H as <-|discriminate].
    destruct (Emit word ts' Hin) as [H|H]; [exact (IH rest [] ts' ltac:(lia) E H)|exact H]. }
  destruct (is_cname_start c).
  { destruct (lex_go rest [c]) as [ts'|] eqn:E; simpl in H; [injection H as <-|discriminate].
    destruct (Emit word ts' Hin) as [H|H]; [exact (IH rest [c] ts' ltac:(lia) E H)|exact H]. }
  destruct (Nat.eqb _ 45).
  { destruct rest as [|d rest']; [discriminate|].
    match type of H with (if ?b then _ else _) = _ => destruct b; [|discriminate] end.
    destruct (lex_go rest' []) as [ts'|] eqn:E; simpl in H; [injection H as <-|discriminate].
    destruct (Emit word _ Hin) as [[H|H]|H]; [discriminate| |exact H].
    simpl in Hn. exact (IH rest' [] ts' ltac:(lia) E H). }
  destruct (is_single_sym c); [|discriminate].
  destruct (lex_go rest []) as [ts'|] eqn:E; simpl in H; [injection H as <-|discriminate].
  destruct (Emit word _ Hin) as [[H|H]|H]; [discriminate| |exact H].
  exact (IH rest [] ts' ltac:(lia) E H).
Qed.

Lemma op_of_level (l : nat) : l < 6 -> In (op_of (level_name l)) tree_operators.
Proof.
  intros Hl. destruct l as [|[|[|[|[|[|l]]]]]]; try lia; vm_compute; tauto.
Qed.

Lemma node_ops_not (n : node) : node_ops (node_not n) = node_ops n.
Proof. destruct n; reflexivity. Qed.

Lemma level_name_data (data : string) :
  existsb (String.eqb data) (map level_name (seq 0 6)) = true -> In (op_of data) tree_operators.
Proof.
  intros H. apply existsb_exists in H as (y & Hy & E). apply String.eqb_eq in E. subst y.
  apply in_map_iff in Hy as (l & <- & Hl). apply in_seq in Hl. apply op_of_level. lia.
Qed.

Lemma grammar_tree_props (p : ptree) :
  grammar_tree p = true ->
  (forall x, In x (node_vars (ptree_node p)) -> x <> "") /\
  Forall (fun op => In op tree_operators) (node_ops (ptree_node p)).
Proof.
  induction p as [data l IHl r IHr | tl e IH | s]; cbn [grammar_tree ptree_node]; intros H.
  - apply andb_prop in H as [H Hr]. apply andb_prop in H as [Hd Hl].
    destruct (IHl Hl) as [Vl Ol]. destruct (IHr Hr) as [Vr Or]. simpl. split.
    + intros x Hx. apply in_app_iff in Hx as [Hx|Hx]; auto.
    + apply Forall_app. split; [exact Ol|]. constructor; [apply level_name_data, Hd|exact Or].
  - rewrite node_vars_not, node_ops_not. exact (IH H).
  - split; [|constructor]. intros x [Hx|[]] E. subst. discriminate H.
Qed.

Lemma level_name_grammar (l : nat) :
  l < 6 -> existsb (String.eqb (level_name l)) (map level_name (seq 0 6)) = true.
Proof. intros Hl. destruct l as [|[|[|[|[|[|l]]]]]]; try lia; vm_compute; reflexivity. Qed.

(** Every tree the grammar resolves over non-empty words has the shape
    [grammar_tree] describes, in particular every tree of [lark_parse]. *)
Lemma Res_grammar_tree (ts : list token) (l i j : nat) (p : ptree) :
  Res ts l i j p -> (forall s, In (TWord s) ts -> s <> "") -> grammar_tree p = true.
Proof.
  intros H Hw.
  induction H as [l i k k' j L R Hl _ IH1 _ _ IH2|l i j P _ _ _ IH|i s Ht
                 |i j x P _ _ _ IH|i j P _ _ IH]; cbn [grammar_tree]; try exact IH.
  - rewrite level_name_grammar, IH1, IH2 by exact Hl. reflexivity.
  - unfold tok in Ht. apply nth_error_In, Hw in Ht.
    destruct (String.eqb_spec s ""); [contradiction|reflexivity].
Qed.

Lemma lark_parse_grammar_tree (s : string) (ts : list token) (p : ptree) :
  lex s = Some ts -> lark_parse ts = Some p -> grammar_tree p = true.
Proof.
  intros Hl Hp. apply (Res_grammar_tree ts 0 0 (length ts) p (proj1 (lark_parse_sound ts p Hp))).
  intros x. exact (lex_go_words _ _ ts x Hl).
Qed.

Lemma tree_from_parse_eq (p : ptree) :
  tree_from_parse p = match ptree_node p with
                      | Var _ _ => Err invalid_expression
                      | Expr _ _ _ _ => Ok (mk_tree (ptree_node p) (sort_strings (ptree_idents p)))
                      end.
Proof.
  destruct (node_dict_json (ptree_node p)) as [_ Hj].
  unfold tree_from_parse. rewrite create_dict_node.
  destruct (ptree_node p) as [v hn|op l r hn]; simpl.
  - reflexivity.
  - simpl in Hj. rewrite Hj. reflexivity.
Qed.

(** X2: [Tree.__init__] on any parse tree [p] raises the [ValueError]
    exactly when [p] is a (possibly negated) identifier; otherwise it
    succeeds with the [Expression] tree [ptree_node p] as root and the
    names of [p], sorted, as variables. *)
Theorem tree_from_parse_outcome (p : ptree) :
  match ptree_node p with
  | Var _ _ => tree_from_parse p = Err invalid_expression
  | Expr _ _ _ _ => tree_from_parse p = Ok (mk_tree (ptree_node p) (sort_strings (ptree_idents p)))
  end.
Proof.
  pose proof (tree_from_parse_eq p) as E. destruct (ptree_node p); exact E.
Qed.

(** X3: for every parse tree of the grammar, the [variables] of the [Tree]
    built from it are strictly increasing, distinct, non-empty, and exactly
    the names occurring in its root; every operator of its root is one of
    OR, AND, XOR, XNOR, NOR, NAND. *)
Theorem tree_from_parse_invariants (p : ptree) (t : tree) :
  grammar_tree p = true -> tree_from_parse p = Ok t ->
  strictly_sorted (variables t) /\ NoDup (variables t) /\
  (forall x, In x (variables t) <-> In x (node_vars (root t))) /\
  Forall (fun x => x <> "") (variables t) /\
  Forall (fun op => In op tree_operators) (node_ops (root t)).
Proof.
  intros Hg H. destruct (ptree_idents_node p) as (Hn & Hin).
  destruct (grammar_tree_props p Hg) as [Hw Ho].
  rewrite tree_from_parse_eq in H.
  assert (Ht : t = mk_tree (ptree_node p) (sort_strings (ptree_idents p)))
    by (destruct (ptree_node p); [discriminate|injection H as <-; reflexivity]).
  subst t. simpl. destruct (sort_strings_props _ Hn) as (Hs & Hn' & Hi).
  split; [exact Hs|]. split; [exact Hn'|].
  split; [intros x; rewrite Hi; apply Hin|]. split; [|exact Ho].
  apply List.Forall_forall. intros x Hx. apply Hw, Hin, Hi, Hx.
Qed.

Lemma tree_from_parse_invariants_witness :
  grammar_tree (PBin "orexpr" (PIdent "b") (PNexpr "not" (PIdent "a"))) = true /\
  tree_from_parse (PBin "orexpr" (PIdent "b") (PNexpr "not" (PIdent "a")))
    = Ok (mk_tree (Expr "OR" (Var "b" false) (Var "a" true) false) ["a"; "b"]) /\
  strictly_sorted ["a"; "b"] /\ NoDup ["a"; "b"] /\
  (forall x, In x ["a"; "b"] <-> In x (node_vars (Expr "OR" (Var "b" false) (Var "a" true) false))) /\
  Forall (fun x => x <> "") ["a"; "b"] /\
  Forall (fun op => In op tree_operators) (node_ops (Expr "OR" (Var "b" false) (Var "a" true) false)).
Proof.
  assert (H1 : grammar_tree (PBin "orexpr" (PIdent "b") (PNexpr "not" (PIdent "a"))) = true)
    by (vm_compute; reflexivity).
  assert (H2 : tree_from_parse (PBin "orexpr" (PIdent "b") (PNexpr "not" (PIdent "a")))
               = Ok (mk_tree (Expr "OR" (Var "b" false) (Var "a" true) false) ["a"; "b"]))
    by (vm_compute; reflexivity).
  split; [exact H1|]. split; [exact H2|].
  exact (tree_from_parse_invariants _ _ H1 H2).
Defined.

Lemma flip_inverted_not (m : lnode) : flip_inverted (lnode_not m) = lnode_not (flip_inverted m).
Proof.
  destruct m as [v hn|l op r hn]; cbn [flip_inverted lnode_not]; [reflexivity|].
  now destruct (is_inverted (JStr op)), hn.
Qed.

Lemma flip_inverted_involutive (m : lnode) : flip_inverted (flip_inverted m) = m.
Proof.
  induction m as [v hn|l IHl op r IHr hn]; cbn [flip_inverted]; [reflexivity|].
  rewrite IHl, IHr. now destruct (is_inverted (JStr op)), hn.
Qed.

Lemma lnode_vars_not (m : lnode) : lnode_vars (lnode_not m) = lnode_vars m.
Proof. destruct m; reflexivity. Qed.

Lemma lnode_ops_not (m : lnode) : lnode_ops (lnode_not m) = lnode_ops m.
Proof. destruct m; reflexivity. Qed.

Lemma logic_create_dict_node (p : ptree) :
  logic_create_dict p = Ok (lnode_dict (flip_inverted (ptree_lnode p)), ptree_idents p).
Proof.
  induction p as [data l IHl r IHr | tl e IH | s]; cbn [logic_create_dict ptree_lnode ptree_idents].
  - rewrite IHl, IHr. cbn [rbind fst snd flip_inverted lnode_dict].
    now destruct (is_inverted (JStr (op_of data))).
  - rewrite IH, flip_inverted_not. simpl. destruct (flip_inverted (ptree_lnode e)); reflexivity.
  - reflexivity.
Qed.

Lemma ptree_idents_lnode (p : ptree) :
  forall x, In x (ptree_idents p) <-> In x (lnode_vars (ptree_lnode p)).
Proof.
  induction p as [data l IHl r IHr | tl e IH | s]; simpl; intros x.
  - rewrite add_new_In, !in_app_iff, IHl, IHr. simpl. tauto.
  - rewrite lnode_vars_not, add_new_In, IH. simpl. tauto.
  - reflexivity.
Qed.

Lemma lnode_dict_json (m : lnode) :
  match m with
  | LogicVar _ _ => logic_var_json (lnode_dict m) = Ok m
  | LogicNode _ _ _ _ => logic_node_json (lnode_dict m) = Ok (flip_inverted m)
  end.
Proof.
  induction m as [v hn|l IHl op r IHr hn]; [reflexivity|].
  cbn [lnode_dict logic_node_json]. simpl py_all_in. cbv iota beta. simpl getitem.
  cbn [rbind]. simpl llookup_with.
  destruct l as [lv lhn|ll lop lr lhn]; simpl py_in; cbn [rbind negb]; rewrite IHl;
  destruct r as [rv rhn|rl rop rr rhn]; simpl py_in; cbn [rbind negb]; rewrite IHr;
  simpl; destruct (String.eqb op "NAND"), (String.eqb op "NOR"), (String.eqb op "XNOR"), hn;
  reflexivity.
Qed.

Lemma ltree_from_parse_eq (p : ptree) :
  ltree_from_parse p = Ok (mk_ltree (lnode_dict (flip_inverted (ptree_lnode p)))
                                    (sort_strings (ptree_idents p)) (ptree_lnode p)).
Proof.
  assert (Hr : (let* isvalue := py_in "value" (lnode_dict (flip_inverted (ptree_lnode p))) in
                if isvalue then logic_var_json (lnode_dict (flip_inverted (ptree_lnode p)))
                else logic_node_json (lnode_dict (flip_inverted (ptree_lnode p))))
               = Ok (ptree_lnode p)).
  { assert (Hj := lnode_dict_json (flip_inverted (ptree_lnode p))).
    rewrite <- (flip_inverted_involutive (ptree_lnode p)) at 2.
    destruct (flip_inverted (ptree_lnode p)); exact Hj. }
  unfold ltree_from_parse. rewrite logic_create_dict_node. cbv iota zeta.
  rewrite Hr. reflexivity.
Qed.

Lemma row_values_complete (vars : list string) (binary : Z) (x : string) :
  NoDup vars -> In x vars -> is_Some (row_values vars binary !! x).
Proof.
  intros Hn Hx. apply list_elem_of_In, list_elem_of_lookup_1 in Hx as [j Hj].
  rewrite (row_values_lookup vars binary j x Hn Hj). eauto.
Qed.

Lemma lnode_evaluate_complete (m : lnode) (tv : gmap string bool) :
  (forall x, In x (lnode_vars m) -> is_Some (tv !! x)) ->
  if forallb and_or (lnode_ops m)
  then exists b, evaluate (lnode_to_node m) tv = Ok b /\ lnode_evaluate m tv = LOk b
  else lnode_evaluate m tv = LErr (UnboundLocalError "evaluation").
Proof.
  induction m as [v hn|l IHl op r IHr hn]; intros Hv.
  - destruct (Hv v (or_introl eq_refl)) as [b Hb]. simpl. rewrite Hb.
    exists (xorb b hn). split; [reflexivity|destruct hn, b; reflexivity].
  - cbn [lnode_ops]. rewrite !forallb_app. cbn [forallb].
    specialize (IHl (fun x Hx => Hv x (in_or_app _ _ _ (or_introl Hx)))).
    specialize (IHr (fun x Hx => Hv x (in_or_app _ _ _ (or_intror Hx)))).
    destruct (forallb and_or (lnode_ops l)); simpl andb;
      [destruct IHl as (bl & El & Ll)|simpl; rewrite IHl; reflexivity].
    destruct (forallb and_or (lnode_ops r)); rewrite ?andb_true_r, ?andb_false_r;
      [destruct IHr as (br & Er & Lr)|simpl; rewrite Ll, IHr; reflexivity].
    unfold and_or. simpl. rewrite Ll, Lr, El, Er. simpl.
    destruct (String.eqb_spec op "OR") as [->|Hor]; simpl.
    + eexists. split; [reflexivity|]. destruct hn, bl, br; reflexivity.
    + destruct (String.eqb_spec op "AND") as [->|Hand]; simpl.
      * eexists. split; [reflexivity|]. destruct hn, bl, br; reflexivity.
      * reflexivity.
Qed.

Lemma idents_props (p : ptree) :
  strictly_sorted (sort_strings (ptree_idents p)) /\ NoDup (sort_strings (ptree_idents p)) /\
  (forall x, In x (sort_strings (ptree_idents p)) <-> In x (lnode_vars (ptree_lnode p))).
Proof.
  destruct (ptree_idents_node p) as [Hn _].
  destruct (sort_strings_props _ Hn) as (Hs & Hn' & Hi').
  split; [exact Hs|]. split; [exact Hn'|]. intros x. rewrite Hi'. apply ptree_idents_lnode.
Qed.

Lemma idents_nonempty (p : ptree) :
  grammar_tree p = true -> Forall (fun x => x <> "") (sort_strings (ptree_idents p)).
Proof.
  intros Hg. destruct (ptree_idents_node p) as [Hn Hi].
  destruct (sort_strings_props _ Hn) as (_ & _ & Hi').
  destruct (grammar_tree_props p Hg) as [Hw _].
  apply List.Forall_forall. intros x Hx. apply Hw, Hi, Hi', Hx.
Qed.

(** X4: [LogicTree.__init__] succeeds on every parse tree of the grammar,
    a single identifier included: its root is [ptree_lnode p], where a
    NAND, NOR or XNOR node carries a flipped [has_not]; its variables are
    sorted, distinct, non-empty and exactly the names of the root. *)
Theorem ltree_from_parse_outcome (p : ptree) :
  grammar_tree p = true ->
  exists e vars, ltree_from_parse p = Ok (mk_ltree e vars (ptree_lnode p)) /\
    strictly_sorted vars /\ NoDup vars /\
    (forall x, In x vars <-> In x (lnode_vars (ptree_lnode p))) /\
    Forall (fun x => x <> "") vars.
Proof.
  intros Hg. do 2 eexists. split; [exact (ltree_from_parse_eq p)|].
  destruct (idents_props p) as (Hs & Hn & Hi).
  split; [exact Hs|]. split; [exact Hn|]. split; [exact Hi|]. exact (idents_nonempty p Hg).
Qed.

Lemma ltree_from_parse_outcome_witness :
  grammar_tree (PBin "nandexpr" (PIdent "a") (PIdent "b")) = true /\
  exists e vars,
    ltree_from_parse (PBin "nandexpr" (PIdent "a") (PIdent "b"))
      = Ok (mk_ltree e vars (ptree_lnode (PBin "nandexpr" (PIdent "a") (PIdent "b")))) /\
    strictly_sorted vars /\ NoDup vars /\
    (forall x, In x vars <-> In x (lnode_vars (ptree_lnode (PBin "nandexpr" (PIdent "a") (PIdent "b"))))) /\
    Forall (fun x => x <> "") vars.
Proof.
  assert (H : grammar_tree (PBin "nandexpr" (PIdent "a") (PIdent "b")) = true)
    by (vm_compute; reflexivity).
  split; [exact H|]. exact (ltree_from_parse_outcome _ H).
Defined.

(** X6: a [LogicTree] built from any parse tree with an operator other than
    OR and AND cannot be evaluated: [evaluate], [get_table] and [simplify]
    all raise [UnboundLocalError]. *)
Theorem ltree_unsupported_operator (p : ptree) (t : ltree) :
  ltree_from_parse p = Ok t -> forallb and_or (lnode_ops (lroot t)) = false ->
  ltree_evaluate t = LErr (UnboundLocalError "evaluation") /\
  (forall as_list, ltree_get_table t as_list = LErr (UnboundLocalError "evaluation")) /\
  (forall get_function get_minterm,
     ltree_simplify get_function t get_minterm = LErr (UnboundLocalError "evaluation")).
Proof.
  intros H Hops.
  assert (E : ltree_evaluate t = LErr (UnboundLocalError "evaluation")).
  { rewrite ltree_from_parse_eq in H. injection H as <-. simpl in Hops.
    destruct (idents_props p) as (_ & Hn & Hi).
    unfold ltree_evaluate. cbn [lvariables lroot].
    destruct (2 ^ length (sort_strings (ptree_idents p))) eqn:E2.
    { exfalso. revert E2. apply Nat.pow_nonzero. lia. }
    cbn [seq lmap_result].
    assert (C := lnode_evaluate_complete (ptree_lnode p)
                   (row_values (sort_strings (ptree_idents p)) (Z.of_nat 0))
                   (fun x Hx => row_values_complete _ _ x Hn (proj2 (Hi x) Hx))).
    rewrite Hops in C. rewrite C. reflexivity. }
  split; [exact E|]. split; intros; unfold ltree_get_table, ltree_simplify; rewrite E; reflexivity.
Qed.

Lemma ltree_unsupported_operator_witness :
  ltree_from_parse (PBin "xorexpr" (PIdent "a") (PIdent "b"))
    = Ok (ltree_of (PBin "xorexpr" (PIdent "a") (PIdent "b"))) /\
  forallb and_or (lnode_ops (lroot (ltree_of (PBin "xorexpr" (PIdent "a") (PIdent "b"))))) = false /\
  ltree_evaluate (ltree_of (PBin "xorexpr" (PIdent "a") (PIdent "b")))
    = LErr (UnboundLocalError "evaluation") /\
  ltree_get_table (ltree_of (PBin "xorexpr" (PIdent "a") (PIdent "b"))) false
    = LErr (UnboundLocalError "evaluation").
Proof.
  assert (H1 : ltree_from_parse (PBin "xorexpr" (PIdent "a") (PIdent "b"))
               = Ok (ltree_of (PBin "xorexpr" (PIdent "a") (PIdent "b"))))
    by (vm_compute; reflexivity).
  assert (H2 : forallb and_or (lnode_ops (lroot (ltree_of (PBin "xorexpr" (PIdent "a") (PIdent "b"))))) = false)
    by (vm_compute; reflexivity).
  destruct (ltree_unsupported_operator _ _ H1 H2) as (E & Et & _).
  split; [exact H1|]. split; [exact H2|]. split; [exact E|exact (Et false)].
Defined.

Lemma and_or_not_inverted (op : string) : and_or op = true -> is_inverted (JStr op) = false.
Proof. unfold and_or. intros H. apply orb_true_iff in H as [H|H]; apply String.eqb_eq in H; subst; reflexivity. Qed.

Lemma lnode_to_node_not (m : lnode) : lnode_to_node (lnode_not m) = node_not (lnode_to_node m).
Proof. destruct m; reflexivity. Qed.

Lemma ptree_lnode_to_node (p : ptree) :
  forallb and_or (lnode_ops (ptree_lnode p)) = true -> lnode_to_node (ptree_lnode p) = ptree_node p.
Proof.
  induction p as [data l IHl r IHr | tl e IH | s]; cbn [ptree_lnode ptree_node]; intros H.
  - cbn [lnode_ops] in H. rewrite !forallb_app in H. cbn [forallb] in H.
    repeat match goal with Hb : _ && _ = true |- _ => apply andb_prop in Hb as [? ?] end.
    cbn [lnode_to_node]. rewrite and_or_not_inverted, IHl, IHr by assumption. reflexivity.
  - rewrite lnode_ops_not in H. rewrite lnode_to_node_not, IH by exact H. reflexivity.
  - reflexivity.
Qed.

Lemma maps_agree (f : nat -> result evaluation) (g : nat -> lresult evaluation) (l : list nat) :
  (forall x, In x l -> exists e, f x = Ok e /\ g x = LOk e) ->
  exists evs, map_result f l = Ok evs /\ lmap_result g l = LOk evs.
Proof.
  induction l as [|x l IH]; intros H; simpl; [eauto|].
  destruct (H x (or_introl eq_refl)) as (e & Ef & Eg). rewrite Ef, Eg. simpl.
  destruct IH as (evs & E1 & E2); [intros y Hy; apply H; right; exact Hy|].
  rewrite E1, E2. simpl. eauto.
Qed.

(** X7: on the same parse tree, if its operators are all OR or AND,
    [LogicTree] and [Tree] (when it accepts the tree) have the same
    variables and [evaluate] returns the same truth table. *)
Theorem ltree_tree_evaluate_agree (p : ptree) (t : tree) (lt : ltree) :
  tree_from_parse p = Ok t -> ltree_from_parse p = Ok lt ->
  forallb and_or (lnode_ops (lroot lt)) = true ->
  lvariables lt = variables t /\
  exists evs, tree_evaluate t = Ok evs /\ ltree_evaluate lt = LOk evs.
Proof.
  intros Ht Hlt Hops.
  rewrite ltree_from_parse_eq in Hlt. injection Hlt as <-. simpl in Hops |- *.
  rewrite tree_from_parse_eq in Ht.
  assert (Et : t = mk_tree (ptree_node p) (sort_strings (ptree_idents p)))
    by (destruct (ptree_node p); [discriminate|injection Ht as <-; reflexivity]).
  subst t. split; [reflexivity|].
  destruct (idents_props p) as (_ & Hn & Hi).
  unfold tree_evaluate, ltree_evaluate. cbn [root variables lroot lvariables].
  rewrite <- (ptree_lnode_to_node p Hops). apply maps_agree. intros b _.
  assert (C := lnode_evaluate_complete (ptree_lnode p)
                 (row_values (sort_strings (ptree_idents p)) (Z.of_nat b))
                 (fun x Hx => row_values_complete _ _ x Hn (proj2 (Hi x) Hx))).
  rewrite Hops in C. destruct C as (v & Ev & Lv).
  exists (mk_evaluation (row_values (sort_strings (ptree_idents p)) (Z.of_nat b)) v).
  rewrite Ev, Lv. split; reflexivity.
Qed.

Lemma ltree_tree_evaluate_agree_witness :
  tree_from_parse (PBin "orexpr" (PIdent "a") (PNexpr "not" (PIdent "b")))
    = Ok (tree_of (PBin "orexpr" (PIdent "a") (PNexpr "not" (PIdent "b")))) /\
  ltree_from_parse (PBin "orexpr" (PIdent "a") (PNexpr "not" (PIdent "b")))
    = Ok (ltree_of (PBin "orexpr" (PIdent "a") (PNexpr "not" (PIdent "b")))) /\
  forallb and_or (lnode_ops (lroot (ltree_of (PBin "orexpr" (PIdent "a") (PNexpr "not" (PIdent "b")))))) = true /\
  lvariables (ltree_of (PBin "orexpr" (PIdent "a") (PNexpr "not" (PIdent "b"))))
    = variables (tree_of (PBin "orexpr" (PIdent "a") (PNexpr "not" (PIdent "b")))) /\
  exists evs, tree_evaluate (tree_of (PBin "orexpr" (PIdent "a") (PNexpr "not" (PIdent "b")))) = Ok evs /\
              ltree_evaluate (ltree_of (PBin "orexpr" (PIdent "a") (PNexpr "not" (PIdent "b")))) = LOk evs.
Proof.
  assert (H1 : tree_from_parse (PBin "orexpr" (PIdent "a") (PNexpr "not" (PIdent "b")))
               = Ok (tree_of (PBin "orexpr" (PIdent "a") (PNexpr "not" (PIdent "b")))))
    by (vm_compute; reflexivity).
  assert (H2 : ltree_from_parse (PBin "orexpr" (PIdent "a") (PNexpr "not" (PIdent "b")))
               = Ok (ltree_of (PBin "orexpr" (PIdent "a") (PNexpr "not" (PIdent "b")))))
    by (vm_compute; reflexivity).
  assert (H3 : forallb and_or (lnode_ops (lroot (ltree_of (PBin "orexpr" (PIdent "a") (PNexpr "not" (PIdent "b")))))) = true)
    by (vm_compute; reflexivity).
  split; [exact H1|]. split; [exact H2|]. split; [exact H3|].
  exact (ltree_tree_evaluate_agree _ _ _ H1 H2 H3).
Defined.

(** X8: [LogicNode.functional] never returns: every tree reaches a
    [LogicVar], which has no [functional] method, so it raises
    [AttributeError]. *)
Theorem lnode_functional_fails (m : lnode) :
  lnode_functional m = Err (AttributeError "'LogicVar' object has no attribute 'functional'").
Proof.
  induction m as [v hn|l IHl op r IHr hn]; [reflexivity|]. simpl. rewrite IHl. reflexivity.
Qed.

Lemma has_key_assoc (k : string) (kvs : list (string * jval)) :
  has_key k kvs = true -> exists v, assoc k kvs = Some v.
Proof. unfold has_key. destruct (assoc k kvs); [eauto|discriminate]. Qed.

Lemma lookup_with_missing (conv : jval -> result node) (k : string) (kvs : list (string * jval)) :
  has_key k kvs = false -> lookup_with conv k kvs = Err (KeyError k).
Proof.
  unfold has_key. induction kvs as [|[k' v] rest IH]; simpl; [reflexivity|].
  destruct (String.eqb k k'); [discriminate|exact IH].
Qed.

(** X9: [Expression(json)] raises [KeyError] when the dict lacks the
    "operator" key or the "left" key, although its explicit check only fires
    when all three keys are missing. *)
Theorem expression_json_missing_key (kvs : list (string * jval)) :
  has_key "operator" kvs = false \/ has_key "left" kvs = false ->
  exists msg, expression_json (JDict kvs) = Err (KeyError msg).
Proof.
  intros Hk. cbn [expression_json].
  destruct (negb (has_key "operator" kvs) && negb (has_key "left" kvs)
            && negb (has_key "right" kvs)); [eauto|].
  destruct (has_key "operator" kvs) eqn:Ho.
  - destruct Hk as [Hk|Hk]; [discriminate|].
    destruct (has_key_assoc _ _ Ho) as [v Hv]. unfold getitem. rewrite Hv. cbn [rbind].
    unfold dict_get. destruct (assoc "has_not" kvs); cbn [rbind];
      rewrite lookup_with_missing by exact Hk; eauto.
  - unfold getitem, has_key in Ho |- *. destruct (assoc "operator" kvs); [discriminate|].
    cbn [rbind]. eauto.
Qed.

Lemma expression_json_missing_key_witness :
  (has_key "operator" [("operator", JStr "OR"); ("right", JDict [("variable", JStr "b")])] = false \/
   has_key "left" [("operator", JStr "OR"); ("right", JDict [("variable", JStr "b")])] = false) /\
  exists msg,
    expression_json (JDict [("operator", JStr "OR"); ("right", JDict [("variable", JStr "b")])])
    = Err (KeyError msg).
Proof.
  assert (H : has_key "operator" [("operator", JStr "OR"); ("right", JDict [("variable", JStr "b")])] = false \/
              has_key "left" [("operator", JStr "OR"); ("right", JDict [("variable", JStr "b")])] = false)
    by (right; reflexivity).
  split; [exact H|]. exact (expression_json_missing_key _ H).
Defined.

Lemma str_length_app (a b : string) : String.length (a ++ b) = String.length a + String.length b.
Proof. induction a as [|c a IH]; simpl; [reflexivity|]. rewrite IH. reflexivity. Qed.

Lemma str_repeat_length (n : nat) (c : ascii) : String.length (str_repeat n c) = n.
Proof. induction n as [|n IH]; simpl; [reflexivity|]. rewrite IH. reflexivity. Qed.

Lemma py_center_length (s : string) (width : nat) :
  String.length (py_center s width) = Nat.max width (String.length s).
Proof.
  unfold py_center. destruct (Nat.leb_spec width (String.length s)) as [H|H]; [lia|].
  rewrite !str_length_app, !str_repeat_length.
  set (marg := width - String.length s).
  assert (Hb : Nat.land (Nat.land marg width) 1 <= 1).
  { pose proof (Nat.land_ones (Nat.land marg width) 1) as E. change (Nat.ones 1) with 1 in E.
    rewrite E. pose proof (Nat.mod_upper_bound (Nat.land marg width) 2). simpl in *. lia. }
  assert (Hd : marg / 2 + Nat.land (Nat.land marg width) 1 <= marg).
  { destruct (Nat.eq_dec marg 1) as [->|Hm]; [simpl in *; lia|].
    pose proof (Nat.div_mod_eq marg 2). pose proof (Nat.mod_upper_bound marg 2).
    unfold marg in *. lia. }
  unfold marg in *. lia.
Qed.

Lemma concat_length (sep1 sep2 : string) (l1 l2 : list string) :
  String.length sep1 = String.length sep2 ->
  Forall2 (fun a b => String.length a = String.length b) l1 l2 ->
  String.length (String.concat sep1 l1) = String.length (String.concat sep2 l2).
Proof.
  intros Hs. induction 1 as [|a b l1 l2 Hab Hl IH]; [reflexivity|].
  destruct Hl as [|a' b' l1' l2']; simpl; [exact Hab|].
  simpl in IH. rewrite !str_length_app, Hab, Hs, IH. reflexivity.
Qed.

Lemma add_new_nodup (acc l : list string) : NoDup (app acc l) -> add_new acc l = app acc l.
Proof.
  unfold add_new. revert acc. induction l as [|v l IH]; intros acc H; simpl; [rewrite app_nil_r; reflexivity|].
  destruct (existsb (String.eqb v) acc) eqn:E.
  - exfalso. apply existsb_exists in E as (y & Hy & Hv). apply String.eqb_eq in Hv. subst y.
    apply NoDup_app in H as (_ & H & _). apply (H v); apply list_elem_of_In; [exact Hy|left; reflexivity].
  - rewrite IH; [rewrite <- app_assoc; reflexivity|]. rewrite <- app_assoc. exact H.
Qed.

Section Table.
Variables (vars : list string) (self_str : string).
Hypothesis Hnd : NoDup vars.
Hypothesis Hne : Forall (fun x => x <> "") vars.
Hypothesis Hself : self_str <> "".

Lemma nonempty_length (x : string) : x <> "" -> 1 <= String.length x.
Proof. destruct x; simpl; [congruence|lia]. Qed.

Lemma cells_aligned (e : evaluation) (keys : list string) :
  Forall (fun x => x <> "") keys -> (forall x, In x keys -> is_Some (truth_values e !! x)) ->
  exists cells,
    map_result (fun value =>
                  match truth_values e !! value with
                  | Some b => Ok (py_center (bit_str b) (String.length value))
                  | None => Err (KeyError value)
                  end) keys = Ok cells /\
    Forall2 (fun a b => String.length a = String.length b) keys cells.
Proof.
  induction keys as [|k keys IH]; intros Hk Hs; simpl; [eauto|].
  inversion Hk as [|? ? Hk0 Hks]; subst.
  destruct (Hs k (or_introl eq_refl)) as [b Hb]. rewrite Hb. cbn [rbind].
  destruct IH as (cells & Ec & Hc); [exact Hks|intros x Hx; apply Hs; right; exact Hx|].
  rewrite Ec. cbn [rbind]. eexists. split; [reflexivity|]. constructor; [|exact Hc].
  rewrite py_center_length. assert (String.length (bit_str b) = 1) by (destruct b; reflexivity).
  pose proof (nonempty_length k Hk0). lia.
Qed.

Lemma row_aligned (e : evaluation) :
  (forall x, In x vars -> is_Some (truth_values e !! x)) ->
  exists row, table_row (add_new [] vars) self_str e = Ok row /\
              String.length row = String.length ("| " ++ String.concat " | " vars ++ " | " ++ self_str ++ " |").
Proof.
  intros Hs. rewrite add_new_nodup by exact Hnd. simpl app.
  destruct (cells_aligned e vars Hne Hs) as (cells & Ec & Hc).
  unfold table_row. rewrite Ec. cbn [rbind]. eexists. split; [reflexivity|].
  rewrite !str_length_app.
  rewrite (concat_length " | " " | " vars cells eq_refl Hc), py_center_length.
  assert (String.length (bit_str (truth_value e)) = 1) by (destruct (truth_value e); reflexivity).
  pose proof (nonempty_length self_str Hself). lia.
Qed.

Lemma rows_aligned (evs : list evaluation) :
  (forall e, In e evs -> forall x, In x vars -> is_Some (truth_values e !! x)) ->
  exists rows, map_result (table_row (add_new [] vars) self_str) evs = Ok rows /\
    length rows = length evs /\
    Forall (fun row => String.length row = String.length ("| " ++ String.concat " | " vars ++ " | " ++ self_str ++ " |")) rows.
Proof.
  induction evs as [|e evs IH]; intros Hs; simpl; [eauto|].
  destruct (row_aligned e (Hs e (or_introl eq_refl))) as (row & Er & Hr). rewrite Er. cbn [rbind].
  destruct IH as (rows & E & Hl & Hf); [intros e' He'; apply Hs; right; exact He'|].
  rewrite E. cbn [rbind]. exists (row :: rows). simpl. auto.
Qed.

Lemma make_table_aligned (evs : list evaluation) :
  (forall e, In e evs -> forall x, In x vars -> is_Some (truth_values e !! x)) ->
  exists separator rows,
    make_table vars self_str evs true = Ok (TableList [("| " ++ String.concat " | " vars ++ " | " ++ self_str ++ " |"); separator; String.concat nl rows]) /\
    make_table vars self_str evs false =
      Ok (TableStr (("| " ++ String.concat " | " vars ++ " | " ++ self_str ++ " |") ++ nl ++ separator ++ nl ++ String.concat nl rows)) /\
    length rows = length evs /\
    String.length separator = String.length ("| " ++ String.concat " | " vars ++ " | " ++ self_str ++ " |") /\
    Forall (fun row => String.length row = String.length ("| " ++ String.concat " | " vars ++ " | " ++ self_str ++ " |")) rows.
Proof.
  intros Hs. destruct (rows_aligned evs Hs) as (rows & E & Hl & Hf).
  unfold make_table. rewrite E. cbn [rbind]. do 2 eexists.
  split; [reflexivity|]. split; [reflexivity|]. split; [exact Hl|]. split; [|exact Hf].
  rewrite !str_length_app, str_repeat_length.
  erewrite (concat_length "-+-" " | " _ vars eq_refl); [reflexivity|].
  clear. induction vars as [|v l IH]; simpl; constructor; [apply str_repeat_length|exact IH].
Qed.
End Table.

Lemma tree_from_parse_aux (p : ptree) (t : tree) :
  grammar_tree p = true -> tree_from_parse p = Ok t ->
  NoDup (variables t) /\ (forall x, In x (node_vars (root t)) -> In x (variables t)) /\
  Forall (fun x => x <> "") (variables t).
Proof.
  intros Hg H. rewrite tree_from_parse_eq in H.
  assert (Ht : t = mk_tree (ptree_node p) (sort_strings (ptree_idents p)))
    by (destruct (ptree_node p); [discriminate|injection H as <-; reflexivity]).
  destruct (idents_props p) as (_ & Hn & _). pose proof (idents_nonempty p Hg) as Hne.
  destruct (ptree_idents_node p) as [Hn0 Hi]. destruct (sort_strings_props _ Hn0) as (_ & _ & Hi').
  subst t. simpl. split; [exact Hn|]. split; [|exact Hne].
  intros x Hx. apply Hi', Hi, Hx.
Qed.

Lemma map_result_in {A B} (f : A -> result B) (l : list A) (ys : list B) (y : B) :
  map_result f l = Ok ys -> In y ys -> exists x, In x l /\ f x = Ok y.
Proof.
  revert ys. induction l as [|x l IH]; simpl; intros ys H Hy.
  - injection H as <-. destruct Hy.
  - destruct (f x) as [y0|] eqn:Ef; [|discriminate]. cbn [rbind] in H.
    destruct (map_result f l) as [ys'|] eqn:E; [|discriminate]. cbn [rbind] in H.
    injection H as <-. destruct Hy as [<-|Hy]; [eauto|].
    destruct (IH ys' eq_refl Hy) as (x' & Hx' & E'). eauto.
Qed.

Lemma lmap_result_ok {A B} (f : A -> lresult B) (l : list A) :
  (forall x, In x l -> exists y, f x = LOk y) ->
  exists ys, lmap_result f l = LOk ys /\ length ys = length l /\
             (forall y, In y ys -> exists x, In x l /\ f x = LOk y).
Proof.
  induction l as [|x l IH]; simpl; intros H.
  - exists []. split; [reflexivity|]. split; [reflexivity|]. intros y [].
  - destruct (H x (or_introl eq_refl)) as [y Hy]. rewrite Hy. cbn [lbind].
    destruct IH as (ys & E & Hl & Hin); [intros z Hz; apply H; right; exact Hz|].
    rewrite E. cbn [lbind]. exists (y :: ys). simpl. split; [reflexivity|]. split; [lia|].
    intros y' [<-|Hy']; [eauto|]. destruct (Hin y' Hy') as (x' & ? & ?). eauto.
Qed.

(** X10: for every parse tree of the grammar that [Tree] accepts and a
    non-empty [str(self)], [get_table] succeeds with 2^n value rows, and
    the separator and every value row are exactly as long as the header. *)
Theorem tree_get_table_aligned (p : ptree) (self_str : string) (t : tree) :
  grammar_tree p = true -> tree_from_parse p = Ok t -> self_str <> "" ->
  let header := "| " ++ String.concat " | " (variables t) ++ " | " ++ self_str ++ " |" in
  exists separator rows,
    tree_get_table t self_str true = Ok (TableList [header; separator; String.concat nl rows]) /\
    tree_get_table t self_str false =
      Ok (TableStr (header ++ nl ++ separator ++ nl ++ String.concat nl rows)) /\
    length rows = 2 ^ length (variables t) /\
    String.length separator = String.length header /\
    Forall (fun row => String.length row = String.length header) rows.
Proof.
  intros Hg Ht Hself header.
  destruct (tree_from_parse_aux p t Hg Ht) as (Hn & Hi & Hne).
  set (f := fun binary : nat =>
              let tv := row_values (variables t) (Z.of_nat binary) in
              let* r := evaluate (root t) tv in Ok (mk_evaluation tv r)).
  destruct (map_result_exists f (seq 0 (2 ^ length (variables t)))) as [evs Ev].
  { intros b _. unfold f. cbv zeta.
    destruct (evaluate_total (root t) (row_values (variables t) (Z.of_nat b))) as [r Hr].
    { intros x Hx. apply row_values_complete; [exact Hn|apply Hi, Hx]. }
    rewrite Hr. eauto. }
  assert (Hc : forall e, In e evs -> forall x, In x (variables t) -> is_Some (truth_values e !! x)).
  { intros e He x Hx. destruct (map_result_in f _ evs e Ev He) as (b & _ & Eb).
    unfold f in Eb. cbv zeta in Eb.
    destruct (evaluate (root t) _); [|discriminate]. injection Eb as <-.
    apply row_values_complete; assumption. }
  destruct (make_table_aligned (variables t) self_str Hn Hne Hself evs Hc)
    as (separator & rows & E1 & E2 & Hl & Hs & Hf).
  exists separator, rows. unfold tree_get_table. fold f.
  change (tree_evaluate t) with (map_result f (seq 0 (2 ^ length (variables t)))).
  rewrite Ev. cbn [rbind]. rewrite E1, E2.
  split; [reflexivity|]. split; [reflexivity|].
  split; [rewrite Hl, (proj1 (map_result_spec f _ evs Ev)); apply length_seq|].
  split; assumption.
Qed.

Lemma tree_get_table_aligned_witness :
  grammar_tree (PBin "andexpr" (PIdent "a") (PIdent "bb")) = true /\
  tree_from_parse (PBin "andexpr" (PIdent "a") (PIdent "bb"))
    = Ok (tree_of (PBin "andexpr" (PIdent "a") (PIdent "bb"))) /\ "f" <> "" /\
  exists separator rows,
    tree_get_table (tree_of (PBin "andexpr" (PIdent "a") (PIdent "bb"))) "f" true =
      Ok (TableList ["| " ++ String.concat " | " (variables (tree_of (PBin "andexpr" (PIdent "a") (PIdent "bb")))) ++ " | f |";
                     separator; String.concat nl rows]) /\
    length rows = 4 /\
    Forall (fun row => String.length row = String.length
              ("| " ++ String.concat " | " (variables (tree_of (PBin "andexpr" (PIdent "a") (PIdent "bb")))) ++ " | f |")) rows.
Proof.
  assert (H0 : grammar_tree (PBin "andexpr" (PIdent "a") (PIdent "bb")) = true)
    by (vm_compute; reflexivity).
  assert (H1 : tree_from_parse (PBin "andexpr" (PIdent "a") (PIdent "bb"))
               = Ok (tree_of (PBin "andexpr" (PIdent "a") (PIdent "bb"))))
    by (vm_compute; reflexivity).
  assert (H2 : "f" <> "") by discriminate.
  destruct (tree_get_table_aligned _ "f" _ H0 H1 H2)
    as (separator & rows & E & _ & Hl & _ & Hf).
  split; [exact H0|]. split; [exact H1|]. split; [exact H2|]. exists separator, rows.
  split; [exact E|]. split; [exact Hl|exact Hf].
Defined.

Lemma lnode_str_nonempty (m : lnode) :
  (forall x, In x (lnode_vars m) -> x <> "") -> lnode_str m <> "".
Proof.
  destruct m as [v hn|l op r hn]; simpl; intros Hv.
  - destruct hn; [discriminate|exact (Hv v (or_introl eq_refl))].
  - intros H. apply (f_equal String.length) in H.
    destruct hn; simpl in H; [discriminate|]. rewrite !str_length_app in H. simpl in H. lia.
Qed.

(** X11: for every parse tree of the grammar whose operators are all OR or
    AND, the [LogicTree] built from it has a [get_table] that succeeds with
    2^n value rows, and the separator and every value row are exactly as
    long as the header. *)
Theorem ltree_get_table_aligned (p : ptree) (t : ltree) :
  grammar_tree p = true -> ltree_from_parse p = Ok t ->
  forallb and_or (lnode_ops (lroot t)) = true ->
  let header := "| " ++ String.concat " | " (lvariables t) ++ " | " ++ lnode_str (lroot t) ++ " |" in
  exists separator rows,
    ltree_get_table t true = LOk (TableList [header; separator; String.concat nl rows]) /\
    ltree_get_table t false =
      LOk (TableStr (header ++ nl ++ separator ++ nl ++ String.concat nl rows)) /\
    length rows = 2 ^ length (lvariables t) /\
    String.length separator = String.length header /\
    Forall (fun row => String.length row = String.length header) rows.
Proof.
  intros Hg H Hops header.
  rewrite ltree_from_parse_eq in H. injection H as Et. symmetry in Et.
  destruct (idents_props p) as (_ & Hn & Hi). pose proof (idents_nonempty p Hg) as Hne.
  assert (Ev1 : lvariables t = sort_strings (ptree_idents p)) by (rewrite Et; reflexivity).
  assert (Er : lroot t = ptree_lnode p) by (rewrite Et; reflexivity).
  rewrite <- Ev1 in Hn, Hi, Hne. rewrite <- Er in Hi. clear Et Ev1 Er.
  set (f := fun binary : nat =>
              let tv := row_values (lvariables t) (Z.of_nat binary) in
              llet r := lnode_evaluate (lroot t) tv in LOk (mk_evaluation tv r)).
  destruct (lmap_result_ok f (seq 0 (2 ^ length (lvariables t)))) as (evs & Ev & Hlen & Hin).
  { intros b _. unfold f. cbv zeta.
    assert (C := lnode_evaluate_complete (lroot t) (row_values (lvariables t) (Z.of_nat b))
                   (fun x Hx => row_values_complete _ _ x Hn (proj2 (Hi x) Hx))).
    rewrite Hops in C. destruct C as (r & _ & Hr). rewrite Hr. eauto. }
  assert (Hc : forall e, In e evs -> forall x, In x (lvariables t) -> is_Some (truth_values e !! x)).
  { intros e He x Hx. destruct (Hin e He) as (b & _ & Eb).
    unfold f in Eb. cbv zeta in Eb.
    destruct (lnode_evaluate (lroot t) _); [|discriminate]. injection Eb as <-.
    apply row_values_complete; assumption. }
  assert (Hself : lnode_str (lroot t) <> "").
  { apply lnode_str_nonempty. intros x Hx. apply Hi in Hx.
    exact (proj1 (List.Forall_forall _ _) Hne x Hx). }
  destruct (make_table_aligned (lvariables t) (lnode_str (lroot t)) Hn Hne Hself evs Hc)
    as (separator & rows & E1 & E2 & Hl' & Hs & Hf).
  exists separator, rows. unfold ltree_get_table.
  change (ltree_evaluate t) with (lmap_result f (seq 0 (2 ^ length (lvariables t)))).
  rewrite Ev. cbn [lbind]. rewrite E1, E2.
  split; [reflexivity|]. split; [reflexivity|].
  split; [rewrite Hl', Hlen; apply length_seq|]. split; assumption.
Qed.

Lemma ltree_get_table_aligned_witness :
  grammar_tree (PBin "andexpr" (PIdent "a") (PIdent "bb")) = true /\
  ltree_from_parse (PBin "andexpr" (PIdent "a") (PIdent "bb"))
    = Ok (ltree_of (PBin "andexpr" (PIdent "a") (PIdent "bb"))) /\
  forallb and_or (lnode_ops (lroot (ltree_of (PBin "andexpr" (PIdent "a") (PIdent "bb"))))) = true /\
  exists separator rows,
    ltree_get_table (ltree_of (PBin "andexpr" (PIdent "a") (PIdent "bb"))) true =
      LOk (TableList ["| " ++ String.concat " | " (lvariables (ltree_of (PBin "andexpr" (PIdent "a") (PIdent "bb")))) ++ " | " ++
                      lnode_str (lroot (ltree_of (PBin "andexpr" (PIdent "a") (PIdent "bb")))) ++ " |";
                      separator; String.concat nl rows]) /\
    length rows = 4 /\
    String.length separator = String.length
      ("| " ++ String.concat " | " (lvariables (ltree_of (PBin "andexpr" (PIdent "a") (PIdent "bb")))) ++ " | " ++
       lnode_str (lroot (ltree_of (PBin "andexpr" (PIdent "a") (PIdent "bb")))) ++ " |").
Proof.
  assert (H0 : grammar_tree (PBin "andexpr" (PIdent "a") (PIdent "bb")) = true)
    by (vm_compute; reflexivity).
  assert (H1 : ltree_from_parse (PBin "andexpr" (PIdent "a") (PIdent "bb"))
               = Ok (ltree_of (PBin "andexpr" (PIdent "a") (PIdent "bb"))))
    by (vm_compute; reflexivity).
  assert (H2 : forallb and_or (lnode_ops (lroot (ltree_of (PBin "andexpr" (PIdent "a") (PIdent "bb"))))) = true)
    by (vm_compute; reflexivity).
  destruct (ltree_get_table_aligned _ _ H0 H1 H2)
    as (separator & rows & E & _ & Hl & Hs & _).
  split; [exact H0|]. split; [exact H1|]. split; [exact H2|]. exists separator, rows.
  split; [exact E|]. split; [exact Hl|exact Hs].
Defined.

(** X5: with a truth value for every variable, [LogicNode.evaluate] raises
    [UnboundLocalError] when some operator is neither OR nor AND, and
    otherwise returns what [Expression.evaluate] returns on the same tree. *)
Theorem lnode_evaluate_operators (m : lnode) (tv : gmap string bool) :
  (forall x, In x (lnode_vars m) -> is_Some (tv !! x)) ->
  if forallb and_or (lnode_ops m)
  then exists b, evaluate (lnode_to_node m) tv = Ok b /\ lnode_evaluate m tv = LOk b
  else lnode_evaluate m tv = LErr (UnboundLocalError "evaluation").
Proof.
  exact (lnode_evaluate_complete m tv).
Qed.

Lemma lnode_evaluate_operators_witness :
  (forall x, In x (lnode_vars (LogicNode (LogicVar "a" false) "OR" (LogicVar "b" true) false)) ->
             is_Some ((<["a" := true]> (<["b" := true]> ∅) : gmap string bool) !! x)) /\
  exists b,
    evaluate (Expr "OR" (Var "a" false) (Var "b" true) false) (<["a" := true]> (<["b" := true]> ∅)) = Ok b /\
    lnode_evaluate (LogicNode (LogicVar "a" false) "OR" (LogicVar "b" true) false)
      (<["a" := true]> (<["b" := true]> ∅)) = LOk b.
Proof.
  assert (H : forall x, In x (lnode_vars (LogicNode (LogicVar "a" false) "OR" (LogicVar "b" true) false)) ->
             is_Some ((<["a" := true]> (<["b" := true]> ∅) : gmap string bool) !! x)).
  { intros x [<-|[<-|[]]]; eexists; vm_compute; reflexivity. }
  split; [exact H|].
  exact (lnode_evaluate_operators _ _ H).
Defined.
